(** * location-service: driver positions, proximity queries and the expiration reaper

    A shallow embedding of [api.go] and [main.go].  The three HTTP handlers
    ([UpdateDriverLocation], [FindNearbyDrivers], [GetDriver]) and the body of
    the expiration listener are written as computations in a small state
    monad over a [World]: the contents of the Redis server, the clock, the
    faults to come, the round trips made so far and the log.

    Redis, [encoding/json] and the distance on the sphere are collaborators
    of the service, not part of it:
    - Redis is an executable model of the commands the service sends, over a
      keyspace split by type of value (the service's two fixed keys never
      carry the detail-record prefix, see [fixed_keys_are_not_driver_keys]).
      The geo index keeps positions as they are given. Whatever makes the
      server or the connection reject a command is a fault of the fault plan:
      the command returns an error and has no effect.
    - The JSON codec of [Driver] is an interface, [json.Codec]; what a
      property needs of it is a hypothesis of that property.
    - The distance between two positions is an interface, [redis.Metric].

    A handler runs from start to end before the next event: requests and
    notifications interleave, the commands of one handler do not interleave
    with those of another. *)

From Stdlib Require Import ZArith Floats Ascii String.
From stdpp Require Import base option list sorting strings gmap.

Open Scope string_scope.
Open Scope list_scope.
Open Scope Z_scope.

(** ** Go values *)

(** A [float64] is an IEEE 754 binary64 number. *)
Abbreviation float64 := PrimFloat.float.

(** A [time.Time] is kept as the instant it denotes, in nanoseconds since the
    Unix epoch; a [time.Duration] is a number of nanoseconds. *)
Abbreviation Time := Z.
Abbreviation Duration := Z.

Module time.
Definition Second : Duration := 1000000000.
Definition Minute : Duration := 60 * Second.
End time.

(** A Go [error] value: the sentinel [redis.Nil], or any other error with
    its message. *)
Inductive error : Type :=
| redis_Nil
| errorString (msg : string).

(** [err.Error()], what [%v] prints. *)
Definition Error (e : error) : string :=
  match e with
  | redis_Nil => "redis: nil"
  | errorString msg => msg
  end.

(** A Go [(value, err)] pair with [err == nil] or [err != nil]. *)
Inductive Result (A : Type) : Type :=
| Ok (a : A)
| Err (e : error).
Arguments Ok {A} a.
Arguments Err {A} e.

(** [strings.HasPrefix] and [strings.TrimPrefix]. *)
Module strings.
Definition HasPrefix (s prefix : string) : bool := String.prefix prefix s.

Fixpoint drop (n : nat) (s : string) : string :=
  match n, s with
  | O, _ => s
  | S n', String _ s' => drop n' s'
  | S _, EmptyString => EmptyString
  end.

Definition TrimPrefix (s prefix : string) : string :=
  if HasPrefix s prefix then drop (String.length prefix) s else s.
End strings.

(** ** api.go: the data model *)

Module Driver.
Record t : Type := Build {
  ID : string;
  IsActive : bool;
  Latitude : float64;
  Longitude : float64;
  LastPing : Time
}.
End Driver.

Module LocationUpdate.
Record t : Type := Build {
  DriverID : string;
  Latitude : float64;
  Longitude : float64;
  IsActive : bool
}.
End LocationUpdate.

Module NearbyRequest.
Record t : Type := Build {
  Latitude : float64;
  Longitude : float64;
  Radius : float64;
  Limit : Z
}.
End NearbyRequest.

Definition GeoSetKey : string := "driver_locations".
Definition DriverPrefix : string := "driver:".
Definition ActiveSetKey : string := "active_drivers".

(** ** encoding/json for [Driver] *)

Module json.
(** [json.Marshal(driver)] and [json.Unmarshal(data, &driver)]. *)
Class Codec : Type := {
  Marshal : Driver.t → Result string;
  Unmarshal : string → Result Driver.t
}.

(** A snapshot that decodes to itself once encoded. *)
Definition round_trips `{Codec} (d : Driver.t) : Prop :=
  ∀ data, Marshal d = Ok data → Unmarshal data = Ok d.

(** Decoding an encoded snapshot gives back the id that was encoded. *)
Definition keeps_id `{Codec} : Prop :=
  ∀ d data d', Marshal d = Ok data → Unmarshal data = Ok d' →
    Driver.ID d' = Driver.ID d.
End json.

(** ** The Redis server *)

Module redis.
(** [redis.GeoLocation] and [redis.GeoRadiusQuery] of go-redis. *)
Record GeoLocation : Type := MkGeoLocation {
  Name : string;
  Longitude : float64;
  Latitude : float64;
  Dist : float64;
  GeoHash : Z
}.

Record GeoRadiusQuery : Type := MkGeoRadiusQuery {
  Radius : float64;
  Unit : string;
  WithCoord : bool;
  WithDist : bool;
  WithGeoHash : bool;
  Count : Z;
  Sort : string
}.

(** The commands the service sends. *)
Inductive Cmd : Type :=
| SET (key value : string) (expiration : Duration)
| GET (key : string)
| GEOADD (key : string) (loc : GeoLocation)
| GEORADIUS_RO (key : string) (longitude latitude : float64) (q : GeoRadiusQuery)
| SADD (key member : string)
| SREM (key member : string)
| SISMEMBER (key member : string)
| ZREM (key member : string).

(** The distance in kilometres between two (longitude, latitude) points, as
    the server computes it. *)
Class Metric : Type :=
  geodist : float64 → float64 → float64 → float64 → float64.

(** The keyspace, by type of value: strings with their expiry deadline,
    geo indexes (sorted sets of members with a position) and sets. *)
Record DB : Type := MkDB {
  strings : gmap string (string * option Time);
  geosets : gmap string (gmap string (float64 * float64));
  sets : gmap string (gset string)
}.

Definition empty : DB := MkDB ∅ ∅ ∅.

Definition geoset (key : string) (db : DB) : gmap string (float64 * float64) :=
  default ∅ (geosets db !! key).

Definition set (key : string) (db : DB) : gset string :=
  default ∅ (sets db !! key).

(** A string key is live until its deadline. *)
Definition live (now : Time) (entry : string * option Time) : bool :=
  match entry.2 with
  | Some deadline => bool_decide (now < deadline)
  | None => true
  end.

(** The effect of a write command at server time [now]. *)
Definition apply (now : Time) (c : Cmd) (db : DB) : DB :=
  match c with
  | SET key value expiration =>
      let deadline :=
        if bool_decide (0 < expiration) then Some (now + expiration) else None in
      MkDB (<[key := (value, deadline)]> (strings db)) (geosets db) (sets db)
  | GEOADD key loc =>
      MkDB (strings db)
           (<[key := <[Name loc := (Longitude loc, Latitude loc)]> (geoset key db)]>
              (geosets db))
           (sets db)
  | SADD key member =>
      MkDB (strings db) (geosets db)
           (<[key := {[member]} ∪ set key db]> (sets db))
  | SREM key member =>
      MkDB (strings db) (geosets db)
           (<[key := set key db ∖ {[member]}]> (sets db))
  | ZREM key member =>
      MkDB (strings db)
           (<[key := delete member (geoset key db)]> (geosets db))
           (sets db)
  | GET _ | GEORADIUS_RO _ _ _ _ | SISMEMBER _ _ => db
  end.

(** GET: the value of a live key, [redis.Nil] otherwise. *)
Definition get (now : Time) (key : string) (db : DB) : Result string :=
  match strings db !! key with
  | Some entry => if live now entry then Ok entry.1 else Err redis_Nil
  | None => Err redis_Nil
  end.

Definition sismember (key member : string) (db : DB) : bool :=
  bool_decide (member ∈ set key db).

Section Search.
Context `{Metric}.

Fixpoint insert_by_dist (x : GeoLocation) (l : list GeoLocation) : list GeoLocation :=
  match l with
  | [] => [x]
  | y :: l' =>
      if (Dist x <=? Dist y)%float then x :: y :: l'
      else y :: insert_by_dist x l'
  end.

Definition sort_by_dist (l : list GeoLocation) : list GeoLocation :=
  foldr insert_by_dist [] l.

Definition located (longitude latitude : float64)
    (entry : string * (float64 * float64)) : GeoLocation :=
  {| Name := entry.1;
     Longitude := entry.2.1;
     Latitude := entry.2.2;
     Dist := geodist longitude latitude entry.2.1 entry.2.2;
     GeoHash := 0 |}.

(** GEORADIUS_RO with WITHCOORD and WITHDIST, in kilometres: the members
    within [Radius] of the centre (boundary included), nearest first
    when [Sort] is ASC, and only the first [Count] of them when the
    client sends COUNT, which go-redis does for a positive [Count]. *)
Definition georadius (key : string) (longitude latitude : float64)
    (q : GeoRadiusQuery) (db : DB) : list GeoLocation :=
  let hits :=
    List.filter (λ loc, (Dist loc <=? Radius q)%float)
      (located longitude latitude <$> map_to_list (geoset key db)) in
  let ordered := if String.eqb (Sort q) "ASC" then sort_by_dist hits else hits in
  if bool_decide (0 < Count q) then take (Z.to_nat (Count q)) ordered else ordered.
End Search.
End redis.

(** ** The world a handler runs in *)

(** The Redis server, the clock, the faults still to come (one entry per
    command sent: [Some msg] makes that command fail with [msg] and leaves
    the server untouched by it), the round trips made so far (each one the
    batch of commands it carried) and the lines logged. *)
Record World : Type := MkWorld {
  server : redis.DB;
  clock : Time;
  faults : list (option string);
  wire : list (list redis.Cmd);
  logs : list string
}.

Definition M (A : Type) : Type := World → A * World.

#[global] Instance M_ret : MRet M := λ A a w, (a, w).
#[global] Instance M_bind : MBind M :=
  λ A B f m w, match m w with (a, w') => f a w' end.

(** [for _, x := range l { acc = body(acc, x) }] *)
Fixpoint for_range {A B : Type} (l : list A) (body : B → A → M B) (acc : B) : M B :=
  match l with
  | [] => mret acc
  | x :: l' => acc' ← body acc x; for_range l' body acc'
  end.

Definition send (batch : list redis.Cmd) : M unit :=
  λ w, (tt, MkWorld (server w) (clock w) (faults w) (wire w ++ [batch]) (logs w)).

Definition fault : M (option string) :=
  λ w, match faults w with
       | [] => (None, w)
       | f :: rest => (f, MkWorld (server w) (clock w) rest (wire w) (logs w))
       end.

Definition served {A : Type} (f : Time → redis.DB → A) : M A :=
  λ w, (f (clock w) (server w), w).

Definition applied (c : redis.Cmd) : M unit :=
  λ w, (tt, MkWorld (redis.apply (clock w) c (server w)) (clock w) (faults w)
                    (wire w) (logs w)).

(** [time.Now()] and [log.Printf]. *)
Definition Now : M Time := λ w, (clock w, w).

Definition Printf (line : string) : M unit :=
  λ w, (tt, MkWorld (server w) (clock w) (faults w) (wire w) (logs w ++ [line])).

(** ** The go-redis client *)

Section Client.
Context `{redis.Metric}.

(** One command, one round trip. *)
Definition call {A : Type} (c : redis.Cmd) (reply : Time → redis.DB → Result A)
    : M (Result A) :=
  send [c];;
  f ← fault;
  match f with
  | Some msg => mret (Err (errorString msg))
  | None => served reply
  end.

Definition Get (key : string) : M (Result string) :=
  call (redis.GET key) (λ now db, redis.get now key db).

Definition SIsMember (key member : string) : M (Result bool) :=
  call (redis.SISMEMBER key member) (λ _ db, Ok (redis.sismember key member db)).

Definition GeoRadius (key : string) (longitude latitude : float64)
    (q : redis.GeoRadiusQuery) : M (Result (list redis.GeoLocation)) :=
  call (redis.GEORADIUS_RO key longitude latitude q)
       (λ _ db, Ok (redis.georadius key longitude latitude q db)).

(** The commands of a pipeline are processed in the order they were queued;
    one that fails does not stop the ones after it. The first error, if any,
    is what [Exec] returns. *)
Fixpoint process (cmds : list redis.Cmd) : M (option error) :=
  match cmds with
  | [] => mret None
  | c :: rest =>
      f ← fault;
      e ← match f with
          | Some msg => mret (Some (errorString msg))
          | None => applied c;; mret None
          end;
      e' ← process rest;
      mret (match e with Some _ => e | None => e' end)
  end.

Definition Exec (pipe : list redis.Cmd) : M (Result unit) :=
  match pipe with
  | [] => mret (Ok tt)
  | _ =>
      send pipe;;
      e ← process pipe;
      mret (match e with Some err => Err err | None => Ok tt end)
  end.
End Client.

(** ** HTTP responses *)

Module http.
Definition StatusOK : Z := 200.
Definition StatusBadRequest : Z := 400.
Definition StatusNotFound : Z := 404.
Definition StatusInternalServerError : Z := 500.
End http.

(** An [interface{}] value of a driver summary. *)
Inductive Any : Type :=
| AString (s : string)
| AFloat (f : float64)
| ABool (b : bool)
| ATime (t : Time).

(** What a handler passes to be encoded as the body of the response. *)
Inductive Payload : Type :=
| ErrorBody (message : string)
| MessageBody (m : gmap string string)
| SummariesBody (l : list (gmap string Any))
| DriverBody (d : Driver.t).

Record Response : Type := MkResponse {
  StatusCode : Z;
  Body : Payload
}.

(** Modelled from the spec: [respondWithError] and [respondWithJSON] are
    called by the handlers but defined in neither [api.go] nor [main.go]; the
    surface of section 6 returns either an error or a result, so a response
    is kept as its status code and its payload before encoding. *)
Definition respondWithError (code : Z) (message : string) : Response :=
  MkResponse code (ErrorBody message).

(** Modelled from the spec: [respondWithJSON], like [respondWithError], is
    not among the sources; it answers with the status code and the payload
    it is given. *)
Definition respondWithJSON (code : Z) (payload : Payload) : Response :=
  MkResponse code payload.

(** ** api.go: the handlers *)

Section Handlers.
Context `{redis.Metric} `{json.Codec}.

(** A handler receives the outcome of [json.NewDecoder(r.Body).Decode]. *)
Definition UpdateDriverLocation (body : Result LocationUpdate.t) : M Response :=
  match body with
  | Err _ => mret (respondWithError http.StatusBadRequest "Invalid request payload")
  | Ok update =>
      now ← Now;
      let driver :=
        {| Driver.ID := LocationUpdate.DriverID update;
           Driver.Latitude := LocationUpdate.Latitude update;
           Driver.Longitude := LocationUpdate.Longitude update;
           Driver.IsActive := LocationUpdate.IsActive update;
           Driver.LastPing := now |} in
      let pipe : list redis.Cmd := [] in
      let driverKey := DriverPrefix +:+ LocationUpdate.DriverID update in
      match json.Marshal driver with
      | Err _ =>
          mret (respondWithError http.StatusInternalServerError
                  "Failed to serialize driver data")
      | Ok driverData =>
          let pipe := pipe ++ [redis.SET driverKey driverData (1 * time.Minute)] in
          let pipe := pipe ++ [redis.GEOADD GeoSetKey
                                 {| redis.Name := LocationUpdate.DriverID update;
                                    redis.Longitude := LocationUpdate.Longitude update;
                                    redis.Latitude := LocationUpdate.Latitude update;
                                    redis.Dist := 0;
                                    redis.GeoHash := 0 |}] in
          let pipe :=
            if LocationUpdate.IsActive update
            then pipe ++ [redis.SADD ActiveSetKey (LocationUpdate.DriverID update)]
            else pipe ++ [redis.SREM ActiveSetKey (LocationUpdate.DriverID update)] in
          r ← Exec pipe;
          match r with
          | Err err =>
              mret (respondWithError http.StatusInternalServerError
                      ("Redis operation failed: " +:+ Error err))
          | Ok _ =>
              mret (respondWithJSON http.StatusOK
                      (MessageBody {[ "message" := "Driver location updated successfully" ]}))
          end
      end
  end.

(** The summary emitted for a candidate whose detail record could not be
    fetched or parsed. *)
Definition fallback (driverID : string) (loc : redis.GeoLocation) : gmap string Any :=
  {[ "id" := AString driverID;
     "distance" := AFloat (redis.Dist loc);
     "latitude" := AFloat (redis.Latitude loc);
     "longitude" := AFloat (redis.Longitude loc);
     "isActive" := ABool true ]}.

Definition driverWithDist (driver : Driver.t) (loc : redis.GeoLocation) : gmap string Any :=
  {[ "id" := AString (Driver.ID driver);
     "distance" := AFloat (redis.Dist loc);
     "latitude" := AFloat (Driver.Latitude driver);
     "longitude" := AFloat (Driver.Longitude driver);
     "isActive" := ABool (Driver.IsActive driver);
     "lastPing" := ATime (Driver.LastPing driver) ]}.

(** The body of the loop over the locations returned by the index. *)
Definition nearby_body (activeDrivers : list (gmap string Any)) (loc : redis.GeoLocation)
    : M (list (gmap string Any)) :=
  let driverID := redis.Name loc in
  r ← SIsMember ActiveSetKey driverID;
  match r with
  | Err _ => mret activeDrivers
  | Ok isActive =>
      if (isActive : bool) then
        let driverKey := DriverPrefix +:+ driverID in
        r ← Get driverKey;
        match r with
        | Err _ => mret (activeDrivers ++ [fallback driverID loc])
        | Ok driverData =>
            match json.Unmarshal driverData with
            | Err _ => mret (activeDrivers ++ [fallback driverID loc])
            | Ok driver => mret (activeDrivers ++ [driverWithDist driver loc])
            end
        end
      else mret activeDrivers
  end.

(** The request after the defaults for radius and limit are filled in. *)
Definition with_defaults (req : NearbyRequest.t) : NearbyRequest.t :=
  let req :=
    if (NearbyRequest.Radius req =? 0)%float
    then NearbyRequest.Build (NearbyRequest.Latitude req) (NearbyRequest.Longitude req)
           5%float (NearbyRequest.Limit req)
    else req in
  let req :=
    if (NearbyRequest.Limit req =? 0)%Z
    then NearbyRequest.Build (NearbyRequest.Latitude req) (NearbyRequest.Longitude req)
           (NearbyRequest.Radius req) 10
    else req in
  req.

Definition geoOptions (req : NearbyRequest.t) : redis.GeoRadiusQuery :=
  {| redis.Radius := NearbyRequest.Radius req;
     redis.Unit := "km";
     redis.WithCoord := true;
     redis.WithDist := true;
     redis.WithGeoHash := false;
     redis.Count := NearbyRequest.Limit req;
     redis.Sort := "ASC" |}.

Definition FindNearbyDrivers (body : Result NearbyRequest.t) : M Response :=
  match body with
  | Err _ => mret (respondWithError http.StatusBadRequest "Invalid request payload")
  | Ok req =>
      let req := with_defaults req in
      r ← GeoRadius GeoSetKey (NearbyRequest.Longitude req) (NearbyRequest.Latitude req)
            (geoOptions req);
      match r with
      | Err err =>
          mret (respondWithError http.StatusInternalServerError
                  ("Geospatial query failed: " +:+ Error err))
      | Ok locations =>
          activeDrivers ← for_range locations nearby_body [];
          mret (respondWithJSON http.StatusOK (SummariesBody activeDrivers))
      end
  end.

(** [driverID] is [mux.Vars(r)["id"]]. *)
Definition GetDriver (driverID : string) : M Response :=
  let driverKey := DriverPrefix +:+ driverID in
  r ← Get driverKey;
  match r with
  | Err redis_Nil => mret (respondWithError http.StatusNotFound "Driver not found")
  | Err err =>
      mret (respondWithError http.StatusInternalServerError
              ("Redis operation failed: " +:+ Error err))
  | Ok driverData =>
      match json.Unmarshal driverData with
      | Err _ =>
          mret (respondWithError http.StatusInternalServerError
                  "Failed to parse driver data")
      | Ok driver => mret (respondWithJSON http.StatusOK (DriverBody driver))
      end
  end.

(** ** main.go: the expiration listener *)

(** The body of [for msg := range ch], [key] being [msg.Payload]. *)
Definition onExpired (key : string) : M unit :=
  if strings.HasPrefix key DriverPrefix then
    let driverID := strings.TrimPrefix key DriverPrefix in
    let pipe : list redis.Cmd := [] in
    let pipe := pipe ++ [redis.ZREM GeoSetKey driverID] in
    let pipe := pipe ++ [redis.SREM ActiveSetKey driverID] in
    r ← Exec pipe;
    match r with
    | Err err =>
        Printf ("Error cleaning up expired driver " +:+ driverID +:+ ": " +:+ Error err)
    | Ok _ => mret tt
    end
  else mret tt.

(** The goroutine started by [setupExpirationListener], on the messages
    [ch] that arrive on the channel of the subscription. *)
Definition setupExpirationListener (ch : list string) : M unit :=
  for_range ch (λ _ key, onExpired key) tt.

End Handlers.

(** ** The running service *)

Section Service.
Context `{redis.Metric} `{json.Codec}.

(** What can happen to the world: the three requests, time passing, the
    server dropping a string key whose deadline has passed (the subscriber
    gets the notification, or the notification is lost), and the
    environment deciding which of the coming commands fail. *)
Inductive Event : Type :=
| Update (body : Result LocationUpdate.t)
| Nearby (body : Result NearbyRequest.t)
| Read (driverID : string)
| Tick (d : Duration)
| Expire (key : string) (delivered : bool)
| Arm (plan : list (option string)).

Definition drop_key (key : string) (w : World) : World :=
  MkWorld (redis.MkDB (delete key (redis.strings (server w)))
                      (redis.geosets (server w)) (redis.sets (server w)))
          (clock w) (faults w) (wire w) (logs w).

Definition expire (key : string) (delivered : bool) (w : World) : World :=
  match redis.strings (server w) !! key with
  | Some entry =>
      if redis.live (clock w) entry then w
      else if delivered then (onExpired key (drop_key key w)).2
      else drop_key key w
  | None => w
  end.

Definition tick (d : Duration) (w : World) : World :=
  MkWorld (server w) (clock w + Z.max 0 d) (faults w) (wire w) (logs w).

Definition run (w : World) (e : Event) : World :=
  match e with
  | Update body => (UpdateDriverLocation body w).2
  | Nearby body => (FindNearbyDrivers body w).2
  | Read driverID => (GetDriver driverID w).2
  | Tick d => tick d w
  | Expire key delivered => expire key delivered w
  | Arm plan => MkWorld (server w) (clock w) plan (wire w) (logs w)
  end.

(** The service starts on an empty server. *)
Definition boot (t0 : Time) : World := MkWorld redis.empty t0 [] [] [].

Definition reachable (w : World) : Prop :=
  ∃ t0 events, w = foldl run (boot t0) events.

End Service.

(** ** Instances to run the model on *)

Module fixture.

(** Degrees of longitude and latitude added up, at 111 km a degree. *)
#[export] Instance taxicab : redis.Metric :=
  λ lon1 lat1 lon2 lat2, (111 * (abs (lon1 - lon2) + abs (lat1 - lat2)))%float.

Definition digit_of_float (f : float64) : option ascii :=
  if PrimFloat.Leibniz.eqb f 0 then Some "0"%char
  else if PrimFloat.Leibniz.eqb f 1 then Some "1"%char
  else if PrimFloat.Leibniz.eqb f 2 then Some "2"%char
  else if PrimFloat.Leibniz.eqb f 3 then Some "3"%char
  else if PrimFloat.Leibniz.eqb f 4 then Some "4"%char
  else None.

Definition float_of_digit (c : ascii) : option float64 :=
  if Ascii.eqb c "0" then Some 0%float
  else if Ascii.eqb c "1" then Some 1%float
  else if Ascii.eqb c "2" then Some 2%float
  else if Ascii.eqb c "3" then Some 3%float
  else if Ascii.eqb c "4" then Some 4%float
  else None.

Definition digit_of_time (t : Time) : option ascii :=
  if (t =? 0)%Z then Some "0"%char
  else if (t =? 1)%Z then Some "1"%char
  else if (t =? 2)%Z then Some "2"%char
  else None.

Definition time_of_digit (c : ascii) : option Time :=
  if Ascii.eqb c "0" then Some 0
  else if Ascii.eqb c "1" then Some 1
  else if Ascii.eqb c "2" then Some 2
  else None.

(** A codec for snapshots with small whole coordinates and ping times: a
    header of four characters (active flag, latitude, longitude, last ping),
    then the id. Anything else fails to encode or to decode. *)
Definition encode (d : Driver.t) : Result string :=
  match digit_of_float (Driver.Latitude d), digit_of_float (Driver.Longitude d),
        digit_of_time (Driver.LastPing d) with
  | Some la, Some lo, Some t =>
      Ok (String (if Driver.IsActive d then "A" else "I")%char
            (String la (String lo (String t (Driver.ID d)))))
  | _, _, _ => Err (errorString "json: unsupported value")
  end.

Definition decode (data : string) : Result Driver.t :=
  match data with
  | String a (String la (String lo (String t id))) =>
      match (if Ascii.eqb a "A" then Some true
             else if Ascii.eqb a "I" then Some false else None),
            float_of_digit la, float_of_digit lo, time_of_digit t with
      | Some active, Some lat, Some lon, Some ping =>
          Ok (Driver.Build id active lat lon ping)
      | _, _, _, _ => Err (errorString "invalid character")
      end
  | _ => Err (errorString "unexpected end of JSON input")
  end.

#[export] Instance codec : json.Codec :=
  {| json.Marshal := encode; json.Unmarshal := decode |}.

(** Updates of two drivers one degree of longitude apart, and queries
    centred on the first of them. *)
Definition d1 : LocationUpdate.t := LocationUpdate.Build "d1" 1 2 true.
Definition d2 : LocationUpdate.t := LocationUpdate.Build "d2" 1 3 true.
Definition d1_off : LocationUpdate.t := LocationUpdate.Build "d1" 1 2 false.
Definition d1_moved : LocationUpdate.t := LocationUpdate.Build "d1" 3 4 true.

Definition around_d1 : NearbyRequest.t := NearbyRequest.Build 1 2 0 0.
Definition wide : NearbyRequest.t := NearbyRequest.Build 1 2 500 0.
Definition unlimited : NearbyRequest.t := NearbyRequest.Build 1 2 500 (-1).

(** The two drivers as the geo index reports them to those queries. *)
Definition d1_indexed : redis.GeoLocation := redis.MkGeoLocation "d1" 2 1 0 0.
Definition d2_indexed : redis.GeoLocation := redis.MkGeoLocation "d2" 3 1 111 0.

(** Both drivers reported. *)
Definition fleet : World := foldl run (boot 0) [Update (Ok d1); Update (Ok d2)].

(** The first driver reported twice; the GEOADD of the second report fails. *)
Definition diverged : World :=
  foldl run (boot 0)
    [Update (Ok d1); Arm [None; Some "connection reset by peer"]; Update (Ok d1_moved)].

(** The first driver reported, then silent for a minute. *)
Definition lapsed : World := foldl run (boot 0) [Update (Ok d1); Tick time.Minute].

(** Both drivers reported; the next command is going to time out. *)
Definition flaky : World := run fleet (Arm [Some "i/o timeout"]).

(** Both drivers reported; the third command from now is going to time out. *)
Definition stuck : World := run fleet (Arm [None; None; Some "i/o timeout"]).

End fixture.

(** * Vocabulary of the properties *)

(** The world after one more round trip that carried [batch] and used up
    [n] entries of the fault plan. *)
Definition after_round_trip (batch : list redis.Cmd) (n : nat) (db : redis.DB)
    (w : World) : World :=
  MkWorld db (clock w) (drop n (faults w)) (wire w ++ [batch]) (logs w).

(** Whether the next command is going to fail, and with what. *)
Definition next_fault (w : World) : option string :=
  match faults w with
  | f :: _ => f
  | [] => None
  end.

(** The next [n] commands reach the server and are answered. *)
Definition healthy (n : nat) (w : World) : Prop :=
  Forall (λ f, f = None) (take n (faults w)).

(** What a pipeline leaves on the server: every command applied in order,
    except those the fault plan makes fail. *)
Fixpoint settled (now : Time) (cmds : list redis.Cmd) (plan : list (option string))
    (db : redis.DB) : redis.DB :=
  match cmds with
  | [] => db
  | c :: rest =>
      match plan with
      | Some _ :: plan' => settled now rest plan' db
      | None :: plan' => settled now rest plan' (redis.apply now c db)
      | [] => settled now rest [] (redis.apply now c db)
      end
  end.

Fixpoint first_error (cmds : list redis.Cmd) (plan : list (option string)) : option error :=
  match cmds with
  | [] => None
  | _ :: rest =>
      match plan with
      | Some msg :: _ => Some (errorString msg)
      | None :: plan' => first_error rest plan'
      | [] => None
      end
  end.

(** The snapshot an update is stored as, and the batch that stores it. *)
Definition snapshot (update : LocationUpdate.t) (now : Time) : Driver.t :=
  {| Driver.ID := LocationUpdate.DriverID update;
     Driver.IsActive := LocationUpdate.IsActive update;
     Driver.Latitude := LocationUpdate.Latitude update;
     Driver.Longitude := LocationUpdate.Longitude update;
     Driver.LastPing := now |}.

Definition upsert_batch (update : LocationUpdate.t) (data : string) : list redis.Cmd :=
  [ redis.SET (DriverPrefix +:+ LocationUpdate.DriverID update) data time.Minute;
    redis.GEOADD GeoSetKey
      {| redis.Name := LocationUpdate.DriverID update;
         redis.Longitude := LocationUpdate.Longitude update;
         redis.Latitude := LocationUpdate.Latitude update;
         redis.Dist := 0;
         redis.GeoHash := 0 |};
    if LocationUpdate.IsActive update
    then redis.SADD ActiveSetKey (LocationUpdate.DriverID update)
    else redis.SREM ActiveSetKey (LocationUpdate.DriverID update) ].

(** An update that names no driver. *)
Definition empty_id_update (latitude longitude : float64) (active : bool)
    : LocationUpdate.t :=
  LocationUpdate.Build "" latitude longitude active.

Definition updated : Payload :=
  MessageBody {[ "message" := "Driver location updated successfully" ]}.

(** The batch that removes a driver from the geo index and the active set. *)
Definition cleanup_batch (driverID : string) : list redis.Cmd :=
  [redis.ZREM GeoSetKey driverID; redis.SREM ActiveSetKey driverID].

(** The distance a summary carries, and lists of distances in
    non-decreasing order. *)
Definition distance_of (m : gmap string Any) : option float64 :=
  match m !! "distance" with
  | Some (AFloat d) => Some d
  | _ => None
  end.

Definition ascending (l : list float64) : Prop :=
  StronglySorted (λ a b, (a <=? b)%float = true) l.

(** No command to come fails. *)
Definition fault_free (w : World) : Prop :=
  Forall (λ f, f = None) (faults w).

(** The commands that only read. *)
Definition read_only (c : redis.Cmd) : bool :=
  match c with
  | redis.GET _ | redis.GEORADIUS_RO _ _ _ _ | redis.SISMEMBER _ _ => true
  | _ => false
  end.

(** Round trips that each carry one command, and a read at that. *)
Definition single_reads (trips : list (list redis.Cmd)) : Prop :=
  Forall (λ batch, ∃ c, batch = [c] ∧ read_only c = true) trips.

Section Vocabulary.
Context `{redis.Metric} `{json.Codec}.

(** The candidate passes the active-set membership check. *)
Definition passes_active_check (loc : redis.GeoLocation) (w : World) : Prop :=
  (SIsMember ActiveSetKey (redis.Name loc) w).1 = Ok true.

(** The world in which the detail record of the candidate is fetched, and
    the world after it was. *)
Definition checked (loc : redis.GeoLocation) (w : World) : World :=
  (SIsMember ActiveSetKey (redis.Name loc) w).2.

Definition fetched (loc : redis.GeoLocation) (w : World) : World :=
  (Get (DriverPrefix +:+ redis.Name loc) (checked loc w)).2.

(** The outcome of fetching and parsing the detail record of the candidate. *)
Definition detail (loc : redis.GeoLocation) (w : World) : Result Driver.t :=
  match (Get (DriverPrefix +:+ redis.Name loc) (checked loc w)).1 with
  | Err e => Err e
  | Ok data => json.Unmarshal data
  end.

(** How a summary comes from a candidate, on a given server at a given time:
    the candidate is in the active set, and the summary is the fallback or
    is built from the detail record stored under the candidate's key. *)
Definition emits (db : redis.DB) (now : Time) (loc : redis.GeoLocation)
    (m : gmap string Any) : Prop :=
  redis.sismember ActiveSetKey (redis.Name loc) db = true ∧
  (m = fallback (redis.Name loc) loc ∨
   ∃ data driver,
     redis.get now (DriverPrefix +:+ redis.Name loc) db = Ok data ∧
     json.Unmarshal data = Ok driver ∧
     m = driverWithDist driver loc).

(** Every detail record that parses is stored under the key of the id it
    holds. *)
Definition well_keyed (db : redis.DB) : Prop :=
  ∀ key entry d,
    redis.strings db !! key = Some entry →
    json.Unmarshal entry.1 = Ok d →
    key = DriverPrefix +:+ Driver.ID d.

(** The write commands an event makes the service send. *)
Definition commands_of (e : Event) (w : World) : list redis.Cmd :=
  match e with
  | Update (Ok update) =>
      match json.Marshal (snapshot update (clock w)) with
      | Ok data => upsert_batch update data
      | Err _ => []
      end
  | Expire key true =>
      if strings.HasPrefix key DriverPrefix
      then cleanup_batch (strings.TrimPrefix key DriverPrefix)
      else []
  | _ => []
  end.

(** An event that is not an update reporting [id] as active. *)
Definition quiet (id : string) (e : Event) : Prop :=
  match e with
  | Update (Ok update) =>
      LocationUpdate.DriverID update = id → LocationUpdate.IsActive update = false
  | _ => True
  end.

(** An event that makes no command fail. *)
Definition calm (e : Event) : Prop :=
  match e with
  | Arm plan => Forall (λ f, f = None) plan
  | _ => True
  end.

(** Every detail record was written by an upsert: it sits under the key of
    the driver of some update, holds the encoding of the snapshot of that
    update at some time, and expires a minute after that time. *)
Definition written_by_upserts (db : redis.DB) : Prop :=
  ∀ key entry,
    redis.strings db !! key = Some entry →
    ∃ update t,
      key = DriverPrefix +:+ LocationUpdate.DriverID update ∧
      json.Marshal (snapshot update t) = Ok entry.1 ∧
      entry.2 = Some (t + time.Minute).

(** The summary a query gives for a candidate when every command is
    answered: none for a candidate that is not in the active set, the detail
    record with the distance of the index when the record is live and parses,
    the fallback otherwise. *)
Definition summary_of (db : redis.DB) (now : Time) (loc : redis.GeoLocation)
    : option (gmap string Any) :=
  if redis.sismember ActiveSetKey (redis.Name loc) db then
    Some match redis.get now (DriverPrefix +:+ redis.Name loc) db with
         | Ok data =>
             match json.Unmarshal data with
             | Ok driver => driverWithDist driver loc
             | Err _ => fallback (redis.Name loc) loc
             end
         | Err _ => fallback (redis.Name loc) loc
         end
  else None.

(** A reported driver as the index gives it to a query centred on
    ([longitude], [latitude]). *)
Definition candidate (longitude latitude : float64) (update : LocationUpdate.t)
    : redis.GeoLocation :=
  redis.located longitude latitude
    (LocationUpdate.DriverID update,
     (LocationUpdate.Longitude update, LocationUpdate.Latitude update)).

(** The answer of the index to a request, on a given server. *)
Definition answer (req : NearbyRequest.t) (db : redis.DB) : list redis.GeoLocation :=
  redis.georadius GeoSetKey (NearbyRequest.Longitude (with_defaults req))
    (NearbyRequest.Latitude (with_defaults req)) (geoOptions (with_defaults req)) db.

End Vocabulary.

(** * Properties *)

(** ** Strings and keys *)

Lemma HasPrefix_app (p s : string) : strings.HasPrefix (p +:+ s) p = true.
Proof.
  unfold strings.HasPrefix.
  induction p as [|c p IH]; simpl.
  - by destruct s.
  - destruct (ascii_dec c c) as [_|Hne]; [exact IH | by destruct Hne].
Qed.

Lemma drop_app (p s : string) : strings.drop (String.length p) (p +:+ s) = s.
Proof. induction p as [|c p IH]; simpl; [by destruct s | exact IH]. Qed.

Lemma TrimPrefix_app (p s : string) : strings.TrimPrefix (p +:+ s) p = s.
Proof. unfold strings.TrimPrefix. by rewrite HasPrefix_app, drop_app. Qed.

Lemma HasPrefix_inv (s p : string) :
  strings.HasPrefix s p = true → s = p +:+ strings.TrimPrefix s p.
Proof.
  unfold strings.TrimPrefix. intros Hp. rewrite Hp. revert s Hp.
  unfold strings.HasPrefix.
  induction p as [|c p IH]; intros [|c' s]; simpl; try done.
  destruct (ascii_dec c c') as [->|]; [|done].
  intros Hp. change (String c' s = String c' (p +:+ strings.drop (String.length p) s)).
  f_equal. by apply IH.
Qed.

Lemma driver_key_inj (a b : string) :
  DriverPrefix +:+ a = DriverPrefix +:+ b → a = b.
Proof. unfold DriverPrefix. simpl. by intros [=]. Qed.

(** The keys of the geo index and of the active set are not detail-record
    keys, so the three views never share a key. *)
Lemma fixed_keys_are_not_driver_keys :
  strings.HasPrefix GeoSetKey DriverPrefix = false ∧
  strings.HasPrefix ActiveSetKey DriverPrefix = false.
Proof. split; reflexivity. Qed.

(** ** The order of [float64] *)

(** [<=?] is transitive, and total on numbers: NaN is the one value that is
    not below itself. *)
Ltac order_cases :=
  repeat match goal with
         | H : context [PosDef.Pos.compare_cont Eq ?a ?b] |- _ =>
             change (PosDef.Pos.compare_cont Eq a b) with (Pos.compare a b) in H
         | |- context [PosDef.Pos.compare_cont Eq ?a ?b] =>
             change (PosDef.Pos.compare_cont Eq a b) with (Pos.compare a b)
         | H : context [Z.compare ?a ?b] |- _ =>
             destruct (Z.compare_spec a b); simpl in H; try discriminate
         | |- context [Z.compare ?a ?b] =>
             destruct (Z.compare_spec a b); simpl
         | H : context [Pos.compare ?a ?b] |- _ =>
             destruct (Pos.compare_spec a b); simpl in H; try discriminate
         | |- context [Pos.compare ?a ?b] =>
             destruct (Pos.compare_spec a b); simpl
         end.

Ltac by_float_cases :=
  unfold SFleb, SFcompare;
  repeat match goal with
         | f : spec_float |- _ => destruct f as [[]|[]| |[] ? ?]
         end;
  simpl; try discriminate; try reflexivity.

Lemma SFleb_trans (a b c : spec_float) :
  SFleb a b = true → SFleb b c = true → SFleb a c = true.
Proof.
  by_float_cases; intros Hab Hbc; order_cases; subst; try reflexivity; lia.
Qed.

Lemma SFleb_total (a b : spec_float) :
  SFleb a a = true → SFleb b b = true → SFleb a b = false → SFleb b a = true.
Proof.
  by_float_cases; intros _ _ Hab; order_cases; subst; try reflexivity; lia.
Qed.

Lemma SFleb_number (a b : spec_float) : SFleb a b = true → SFleb a a = true.
Proof. by_float_cases; intros _; order_cases; try reflexivity; lia. Qed.

Lemma leb_trans (x y z : float64) :
  (x <=? y)%float = true → (y <=? z)%float = true → (x <=? z)%float = true.
Proof. rewrite !leb_spec. apply SFleb_trans. Qed.

Lemma leb_total (x y : float64) :
  (x <=? x)%float = true → (y <=? y)%float = true →
  (x <=? y)%float = false → (y <=? x)%float = true.
Proof. rewrite !leb_spec. apply SFleb_total. Qed.

Lemma leb_number (x y : float64) : (x <=? y)%float = true → (x <=? x)%float = true.
Proof. rewrite !leb_spec. apply SFleb_number. Qed.

Lemma ascending_sublist (l1 l2 : list float64) :
  l1 `sublist_of` l2 → ascending l2 → ascending l1.
Proof.
  unfold ascending. induction 1 as [|x l1 l2 Hsub IH|x l1 l2 Hsub IH];
    rewrite ?StronglySorted_cons; [done| |].
  - intros [Hx Hl2]. split; [|by apply IH].
    apply Forall_forall. intros y Hy.
    rewrite Forall_forall in Hx. apply Hx. by eapply elem_of_sublist.
  - intros [_ Hl2]. by apply IH.
Qed.

(** ** The radius search of the server *)

Section Index.
Context `{redis.Metric}.

Lemma elem_of_insert_by_dist (x y : redis.GeoLocation) (l : list redis.GeoLocation) :
  y ∈ redis.insert_by_dist x l ↔ y = x ∨ y ∈ l.
Proof.
  induction l as [|z l IH]; simpl.
  - rewrite list_elem_of_singleton, elem_of_nil. tauto.
  - destruct (redis.Dist x <=? redis.Dist z)%float.
    + by rewrite elem_of_cons.
    + rewrite !elem_of_cons, IH. tauto.
Qed.

Lemma insert_by_dist_ascending (x : redis.GeoLocation) (l : list redis.GeoLocation) :
  (redis.Dist x <=? redis.Dist x)%float = true →
  Forall (λ y, (redis.Dist y <=? redis.Dist y)%float = true) l →
  ascending (redis.Dist <$> l) →
  ascending (redis.Dist <$> redis.insert_by_dist x l).
Proof.
  unfold ascending. intros Hx Hl. induction l as [|y l IH]; simpl.
  - intros _. by repeat constructor.
  - rewrite StronglySorted_cons. intros [Hy Hsorted].
    apply Forall_cons in Hl as [Hyy Hl].
    destruct (redis.Dist x <=? redis.Dist y)%float eqn:Hxy.
    + simpl. apply StronglySorted_cons. split.
      * constructor; [done|]. eapply Forall_impl; [exact Hy|].
        intros d Hd. by eapply leb_trans.
      * by apply StronglySorted_cons.
    + simpl. apply StronglySorted_cons. split; [|by apply IH].
      apply Forall_fmap, Forall_forall. intros z Hz.
      apply elem_of_insert_by_dist in Hz as [->|Hz].
      * by apply leb_total.
      * rewrite Forall_fmap, Forall_forall in Hy. by apply Hy.
Qed.

Lemma sort_by_dist_ascending (l : list redis.GeoLocation) :
  Forall (λ y, (redis.Dist y <=? redis.Dist y)%float = true) l →
  ascending (redis.Dist <$> redis.sort_by_dist l).
Proof.
  unfold redis.sort_by_dist. induction 1 as [|x l Hx Hl IH]; simpl.
  - constructor.
  - apply insert_by_dist_ascending; [done| |done].
    clear IH. induction l as [|y l IH]; simpl; [done|].
    apply Forall_cons in Hl as [Hy Hl]. apply Forall_forall. intros z Hz.
    apply elem_of_insert_by_dist in Hz as [->|Hz]; [done|].
    specialize (IH Hl). rewrite Forall_forall in IH. by apply IH.
Qed.

(** Asked for ascending order, the index answers in non-decreasing order of
    distance: a member whose distance is not a number is not within any
    radius. *)
Lemma georadius_ascending (key : string) (longitude latitude : float64)
    (q : redis.GeoRadiusQuery) (db : redis.DB) :
  redis.Sort q = "ASC" →
  ascending (redis.Dist <$> redis.georadius key longitude latitude q db).
Proof.
  intros Hsort. unfold redis.georadius. rewrite Hsort. simpl.
  set (hits := List.filter _ _).
  assert (ascending (redis.Dist <$> redis.sort_by_dist hits)) as Hsorted.
  { apply sort_by_dist_ascending, Forall_forall. intros loc Hloc.
    apply list_elem_of_In, filter_In in Hloc as [_ Hloc]. by eapply leb_number. }
  case_bool_decide; [|done].
  eapply ascending_sublist; [|exact Hsorted].
  apply fmap_sublist, sublist_take.
Qed.

End Index.

(** ** The client *)

Ltac unfold_monad :=
  unfold mbind, M_bind, mret, M_ret, send, fault, served, applied, Now, Printf in *.

Lemma call_eq {A : Type} (c : redis.Cmd) (reply : Time → redis.DB → Result A) (w : World) :
  call c reply w =
    (match next_fault w with
     | Some msg => Err (errorString msg)
     | None => reply (clock w) (server w)
     end,
     after_round_trip [c] 1 (server w) w).
Proof.
  unfold call, next_fault, after_round_trip. unfold_monad. destruct w as [db t fs ws ls]; simpl.
  destruct fs as [|[msg|] fs]; reflexivity.
Qed.

Lemma healthy_next (n : nat) (w : World) : healthy (S n) w → next_fault w = None.
Proof.
  unfold healthy, next_fault. destruct (faults w) as [|f fs]; simpl; [done|].
  by inversion 1.
Qed.

Lemma process_eq (cmds : list redis.Cmd) (w : World) :
  process cmds w =
    (first_error cmds (faults w),
     MkWorld (settled (clock w) cmds (faults w) (server w)) (clock w)
             (drop (length cmds) (faults w)) (wire w) (logs w)).
Proof.
  revert w. induction cmds as [|c rest IH]; intros [db t fs ws ls]; simpl.
  - reflexivity.
  - unfold_monad. destruct fs as [|[msg|] fs]; simpl; rewrite IH; simpl.
    + f_equal; [by destruct rest | by rewrite drop_nil].
    + reflexivity.
    + by destruct (first_error rest fs).
Qed.

Lemma Exec_eq (c : redis.Cmd) (rest : list redis.Cmd) (w : World) :
  Exec (c :: rest) w =
    (match first_error (c :: rest) (faults w) with
     | Some err => Err err
     | None => Ok tt
     end,
     after_round_trip (c :: rest) (length (c :: rest))
       (settled (clock w) (c :: rest) (faults w) (server w)) w).
Proof.
  unfold Exec. unfold_monad. rewrite process_eq. reflexivity.
Qed.

Lemma first_error_None (cmds : list redis.Cmd) (plan : list (option string)) :
  first_error cmds plan = None ↔ Forall (λ f, f = None) (take (length cmds) plan).
Proof.
  revert plan. induction cmds as [|c rest IH]; intros plan; simpl.
  - split; [constructor | done].
  - destruct plan as [|[msg|] plan]; simpl.
    + split; [constructor | done].
    + split; [done | by inversion 1].
    + rewrite IH. split; [by constructor | by inversion 1].
Qed.

Lemma settled_healthy (now : Time) (cmds : list redis.Cmd) (plan : list (option string))
    (db : redis.DB) :
  Forall (λ f, f = None) (take (length cmds) plan) →
  settled now cmds plan db = foldl (λ db c, redis.apply now c db) db cmds.
Proof.
  revert plan db. induction cmds as [|c rest IH]; intros plan db Hplan; simpl; [done|].
  destruct plan as [|[msg|] plan]; simpl in *.
  - apply (IH []). by destruct rest.
  - by inversion Hplan.
  - apply IH. by inversion Hplan.
Qed.

(** A property of the server kept by each command of a pipeline is kept by
    the pipeline, whichever of its commands fail. *)
Lemma settled_preserves (Q : redis.DB → Prop) (now : Time) (cmds : list redis.Cmd)
    (plan : list (option string)) (db : redis.DB) :
  (∀ c db', c ∈ cmds → Q db' → Q (redis.apply now c db')) →
  Q db → Q (settled now cmds plan db).
Proof.
  revert plan db. induction cmds as [|c rest IH]; intros plan db Hstep HQ; simpl; [done|].
  assert (∀ c' db', c' ∈ rest → Q db' → Q (redis.apply now c' db')) as Hrest.
  { intros c' db' Hin. apply Hstep. by right. }
  destruct plan as [|[msg|] plan]; apply IH; auto; apply Hstep; auto; by left.
Qed.

Arguments settled : simpl never.
Arguments first_error : simpl never.

(** ** The proximity query, candidate by candidate *)

Section Nearby.
Context `{redis.Metric} `{json.Codec}.

Lemma nearby_body_eq (acc : list (gmap string Any)) (loc : redis.GeoLocation) (w : World) :
  nearby_body acc loc w =
    match (SIsMember ActiveSetKey (redis.Name loc) w).1 with
    | Err _ | Ok false => (acc, checked loc w)
    | Ok true =>
        match detail loc w with
        | Err _ => (acc ++ [fallback (redis.Name loc) loc], fetched loc w)
        | Ok driver => (acc ++ [driverWithDist driver loc], fetched loc w)
        end
    end.
Proof.
  unfold nearby_body, detail, fetched, checked. unfold mbind, M_bind.
  destruct (SIsMember ActiveSetKey (redis.Name loc) w) as [[[]|e] w1]; simpl; try reflexivity.
  destruct (Get (DriverPrefix +:+ redis.Name loc) w1) as [[data|e] w2]; simpl;
    [|reflexivity].
  by destruct (json.Unmarshal data).
Qed.

Lemma FindNearbyDrivers_eq (req : NearbyRequest.t) (w : World) :
  FindNearbyDrivers (Ok req) w =
    let q := with_defaults req in
    match GeoRadius GeoSetKey (NearbyRequest.Longitude q) (NearbyRequest.Latitude q)
            (geoOptions q) w with
    | (Err err, w1) =>
        (respondWithError http.StatusInternalServerError
           ("Geospatial query failed: " +:+ Error err), w1)
    | (Ok locations, w1) =>
        (respondWithJSON http.StatusOK
           (SummariesBody (for_range locations nearby_body [] w1).1),
         (for_range locations nearby_body [] w1).2)
    end.
Proof.
  unfold FindNearbyDrivers. unfold mbind, M_bind. simpl.
  destruct (GeoRadius _ _ _ _ w) as [[locations|err] w1]; [|reflexivity].
  by destruct (for_range locations nearby_body [] w1).
Qed.

(** Once the index has answered, the request succeeds, whatever happens to
    the lookups made for the candidates. *)
Lemma FindNearbyDrivers_status (req : NearbyRequest.t) (w : World) :
  let q := with_defaults req in
  ∀ locations,
    (GeoRadius GeoSetKey (NearbyRequest.Longitude q) (NearbyRequest.Latitude q)
       (geoOptions q) w).1 = Ok locations →
    StatusCode (FindNearbyDrivers (Ok req) w).1 = http.StatusOK.
Proof.
  intros q locations Hq. rewrite FindNearbyDrivers_eq. subst q. cbv zeta.
  destruct (GeoRadius _ _ _ _ w) as [[l|e] w1]; simpl in *; [done | discriminate].
Qed.

End Nearby.

Section Enrichment.
Context `{redis.Metric} `{json.Codec}.

(** C1, as the code has it: a candidate that passes the membership check and
    whose detail record is fetched and parsed is emitted with the distance
    the geo index reported for it; its id, latitude, longitude, active flag
    and last ping are the ones stored in the detail record. *)
Theorem enriched_summary_takes_position_from_detail_record
    (acc : list (gmap string Any)) (loc : redis.GeoLocation) (w : World) (driver : Driver.t) :
  passes_active_check loc w →
  detail loc w = Ok driver →
  ∃ m, nearby_body acc loc w = (acc ++ [m], fetched loc w) ∧
       m !! "distance" = Some (AFloat (redis.Dist loc)) ∧
       m !! "latitude" = Some (AFloat (Driver.Latitude driver)) ∧
       m !! "longitude" = Some (AFloat (Driver.Longitude driver)) ∧
       m !! "id" = Some (AString (Driver.ID driver)) ∧
       m !! "isActive" = Some (ABool (Driver.IsActive driver)) ∧
       m !! "lastPing" = Some (ATime (Driver.LastPing driver)).
Proof.
  intros Hactive Hdetail. exists (driverWithDist driver loc).
  rewrite nearby_body_eq. unfold passes_active_check in Hactive.
  rewrite Hactive, Hdetail. repeat split; reflexivity.
Qed.

(** C2: a candidate that passes the membership check and whose detail record
    cannot be fetched (absent, expired, or the command failed) or cannot be
    parsed is emitted all the same, with the id, coordinates and distance of
    the geo index and [isActive] true; the loop goes on with the next
    candidate and the request is answered with status 200. *)
Theorem unusable_detail_record_falls_back
    (acc : list (gmap string Any)) (loc : redis.GeoLocation) (w : World) (e : error) :
  passes_active_check loc w →
  detail loc w = Err e →
  ∃ m, nearby_body acc loc w = (acc ++ [m], fetched loc w) ∧
       m !! "id" = Some (AString (redis.Name loc)) ∧
       m !! "distance" = Some (AFloat (redis.Dist loc)) ∧
       m !! "latitude" = Some (AFloat (redis.Latitude loc)) ∧
       m !! "longitude" = Some (AFloat (redis.Longitude loc)) ∧
       m !! "isActive" = Some (ABool true) ∧
       (∀ rest, for_range (loc :: rest) nearby_body acc w =
                for_range rest nearby_body (acc ++ [m]) (fetched loc w)) ∧
       (∀ req w0 locations,
          (GeoRadius GeoSetKey (NearbyRequest.Longitude (with_defaults req))
             (NearbyRequest.Latitude (with_defaults req))
             (geoOptions (with_defaults req)) w0).1 = Ok locations →
          StatusCode (FindNearbyDrivers (Ok req) w0).1 = http.StatusOK).
Proof.
  intros Hactive Hdetail. exists (fallback (redis.Name loc) loc).
  assert (nearby_body acc loc w =
          (acc ++ [fallback (redis.Name loc) loc], fetched loc w)) as Hstep.
  { rewrite nearby_body_eq. unfold passes_active_check in Hactive.
    by rewrite Hactive, Hdetail. }
  repeat split; try reflexivity; [exact Hstep | | ].
  - intros rest. simpl. unfold mbind, M_bind. by rewrite Hstep.
  - intros req w0 locations. apply FindNearbyDrivers_status.
Qed.

(** The detail record of a candidate is unusable when its key is absent from
    the server, when its deadline has passed, and when the GET fails. *)
Lemma detail_missing (loc : redis.GeoLocation) (w : World) :
  redis.strings (server w) !! (DriverPrefix +:+ redis.Name loc) = None →
  ∃ e, detail loc w = Err e.
Proof.
  intros Hnone. unfold detail, checked, Get, SIsMember. rewrite !call_eq. simpl.
  destruct (next_fault _); [by eexists|].
  unfold redis.get. rewrite Hnone. by eexists.
Qed.

(** C9: when the membership check of a candidate itself fails, the candidate
    is skipped: nothing is appended for it, its detail record is not even
    fetched, the loop goes on with the next candidate and the request is
    answered with status 200. *)
Theorem membership_error_skips_candidate
    (acc : list (gmap string Any)) (loc : redis.GeoLocation) (w : World) (e : error) :
  (SIsMember ActiveSetKey (redis.Name loc) w).1 = Err e →
  nearby_body acc loc w = (acc, checked loc w) ∧
  wire (checked loc w) = wire w ++ [[redis.SISMEMBER ActiveSetKey (redis.Name loc)]] ∧
  (∀ rest, for_range (loc :: rest) nearby_body acc w =
           for_range rest nearby_body acc (checked loc w)) ∧
  (∀ req w0 locations,
     (GeoRadius GeoSetKey (NearbyRequest.Longitude (with_defaults req))
        (NearbyRequest.Latitude (with_defaults req))
        (geoOptions (with_defaults req)) w0).1 = Ok locations →
     StatusCode (FindNearbyDrivers (Ok req) w0).1 = http.StatusOK).
Proof.
  intros Hfail.
  assert (nearby_body acc loc w = (acc, checked loc w)) as Hstep.
  { rewrite nearby_body_eq. by rewrite Hfail. }
  repeat split.
  - exact Hstep.
  - unfold checked, SIsMember. by rewrite call_eq.
  - intros rest. simpl. unfold mbind, M_bind. by rewrite Hstep.
  - intros req w0 locations. apply FindNearbyDrivers_status.
Qed.

End Enrichment.

(** ** The location store: upsert and read *)

Section Store.
Context `{json.Codec}.

Lemma UpdateDriverLocation_eq (update : LocationUpdate.t) (w : World) :
  UpdateDriverLocation (Ok update) w =
    match json.Marshal (snapshot update (clock w)) with
    | Err _ =>
        (respondWithError http.StatusInternalServerError
           "Failed to serialize driver data", w)
    | Ok data =>
        (match first_error (upsert_batch update data) (faults w) with
         | Some err =>
             respondWithError http.StatusInternalServerError
               ("Redis operation failed: " +:+ Error err)
         | None => respondWithJSON http.StatusOK updated
         end,
         after_round_trip (upsert_batch update data) 3
           (settled (clock w) (upsert_batch update data) (faults w) (server w)) w)
    end.
Proof.
  destruct (json.Marshal (snapshot update (clock w))) as [data|e] eqn:Hm;
    unfold UpdateDriverLocation, mbind, M_bind, Now; cbv beta iota zeta;
    unfold snapshot in Hm; rewrite Hm; [|reflexivity].
  unfold upsert_batch.
  destruct (LocationUpdate.IsActive update); simpl app; rewrite Exec_eq;
    change (1 * time.Minute) with time.Minute;
    destruct (first_error _ _); reflexivity.
Qed.

(** What the three commands leave on a server that accepts them all. *)
Lemma upsert_batch_effect (update : LocationUpdate.t) (data : string) (now : Time)
    (db : redis.DB) :
  let db' := foldl (λ db c, redis.apply now c db) db (upsert_batch update data) in
  let id := LocationUpdate.DriverID update in
  redis.strings db' !! (DriverPrefix +:+ id) = Some (data, Some (now + time.Minute)) ∧
  redis.geoset GeoSetKey db' !! id =
    Some (LocationUpdate.Longitude update, LocationUpdate.Latitude update) ∧
  (id ∈ redis.set ActiveSetKey db' ↔ LocationUpdate.IsActive update = true).
Proof.
  unfold upsert_batch. destruct update as [id lat lon active]. simpl.
  split; [|split].
  - destruct active; simpl; by rewrite lookup_insert_eq.
  - unfold redis.geoset. destruct active; simpl; rewrite lookup_insert_eq; simpl;
      by rewrite lookup_insert_eq.
  - unfold redis.set. destruct active; simpl; rewrite lookup_insert_eq; simpl.
    + split; [done | intros _; apply elem_of_union_l; by apply elem_of_singleton].
    + split; [|done]. intros [_ Hid]%elem_of_difference. by destruct Hid; apply elem_of_singleton.
Qed.

Lemma upsert_healthy (update : LocationUpdate.t) (w : World) (data : string) :
  json.Marshal (snapshot update (clock w)) = Ok data →
  healthy 3 w →
  UpdateDriverLocation (Ok update) w =
    (respondWithJSON http.StatusOK updated,
     after_round_trip (upsert_batch update data) 3
       (foldl (λ db c, redis.apply (clock w) c db) (server w) (upsert_batch update data))
       w).
Proof.
  intros Hdata Hw. rewrite UpdateDriverLocation_eq, Hdata.
  assert (first_error (upsert_batch update data) (faults w) = None) as ->
    by by apply first_error_None.
  by rewrite settled_healthy.
Qed.

(** An upsert answered with status 200 encoded its snapshot and had all
    three commands accepted. *)
Lemma upsert_ok_inv (update : LocationUpdate.t) (w : World) :
  StatusCode (UpdateDriverLocation (Ok update) w).1 = http.StatusOK →
  ∃ data, json.Marshal (snapshot update (clock w)) = Ok data ∧ healthy 3 w.
Proof.
  rewrite UpdateDriverLocation_eq.
  destruct (json.Marshal _) as [data|e]; [|done].
  destruct (first_error _ _) eqn:Herr; [done|].
  intros _. exists data. split; [done|]. by apply first_error_None in Herr.
Qed.

(** C5: an upsert whose snapshot (the update with [lastPing] set to the
    current time) is encoded makes one round trip that carries exactly three
    commands: SET of the detail record with an expiration of one minute,
    GEOADD of the coordinates under the id in the shared geo index, and SADD
    of the id to the active set when the update is active, SREM otherwise.
    On a server that accepts them, the detail record holds the encoded
    snapshot whatever it held before, with a deadline one minute from now,
    the geo index holds the coordinates under the id, and the id is in the
    active set exactly when the update is active. *)
Theorem upsert_issues_one_batch_of_three
    (update : LocationUpdate.t) (w : World) (data : string) :
  json.Marshal (snapshot update (clock w)) = Ok data →
  Driver.LastPing (snapshot update (clock w)) = clock w ∧
  wire (UpdateDriverLocation (Ok update) w).2 = wire w ++
    [[ redis.SET (DriverPrefix +:+ LocationUpdate.DriverID update) data time.Minute;
       redis.GEOADD GeoSetKey
         (redis.MkGeoLocation (LocationUpdate.DriverID update)
            (LocationUpdate.Longitude update) (LocationUpdate.Latitude update) 0 0);
       if LocationUpdate.IsActive update
       then redis.SADD ActiveSetKey (LocationUpdate.DriverID update)
       else redis.SREM ActiveSetKey (LocationUpdate.DriverID update) ]] ∧
  (healthy 3 w →
   redis.strings (server (UpdateDriverLocation (Ok update) w).2)
     !! (DriverPrefix +:+ LocationUpdate.DriverID update) =
     Some (data, Some (clock w + time.Minute)) ∧
   redis.geoset GeoSetKey (server (UpdateDriverLocation (Ok update) w).2)
     !! LocationUpdate.DriverID update =
     Some (LocationUpdate.Longitude update, LocationUpdate.Latitude update) ∧
   (LocationUpdate.DriverID update
      ∈ redis.set ActiveSetKey (server (UpdateDriverLocation (Ok update) w).2)
    ↔ LocationUpdate.IsActive update = true)).
Proof.
  intros Hdata. split; [reflexivity|]. split.
  - by rewrite UpdateDriverLocation_eq, Hdata.
  - intros Hw. rewrite (upsert_healthy _ _ _ Hdata Hw). simpl.
    apply upsert_batch_effect.
Qed.

(** C10: the driver id is not validated. An update whose id is the empty
    string, once its snapshot is encoded, sends the same three commands: the
    detail record goes under the bare prefix, the geo index gets a member
    named by the empty string and the active set is updated for the empty
    id; on a server that accepts the commands the request is answered with
    status 200. *)
Theorem upsert_accepts_empty_id
    (latitude longitude : float64) (active : bool) (w : World) (data : string) :
  json.Marshal (snapshot (empty_id_update latitude longitude active) (clock w)) = Ok data →
  healthy 3 w →
  (UpdateDriverLocation (Ok (empty_id_update latitude longitude active)) w).1 =
    respondWithJSON http.StatusOK updated ∧
  wire (UpdateDriverLocation (Ok (empty_id_update latitude longitude active)) w).2 =
    wire w ++
    [[ redis.SET "driver:" data time.Minute;
       redis.GEOADD GeoSetKey (redis.MkGeoLocation "" longitude latitude 0 0);
       if active then redis.SADD ActiveSetKey "" else redis.SREM ActiveSetKey "" ]] ∧
  redis.strings (server (UpdateDriverLocation
                           (Ok (empty_id_update latitude longitude active)) w).2)
    !! "driver:" = Some (data, Some (clock w + time.Minute)) ∧
  redis.geoset GeoSetKey (server (UpdateDriverLocation
                                    (Ok (empty_id_update latitude longitude active)) w).2)
    !! "" = Some (longitude, latitude) ∧
  ("" ∈ redis.set ActiveSetKey (server (UpdateDriverLocation
                                          (Ok (empty_id_update latitude longitude active)) w).2)
   ↔ active = true).
Proof.
  intros Hdata Hw.
  rewrite (upsert_healthy _ _ _ Hdata Hw). simpl.
  split; [done|]. split; [done|].
  apply (upsert_batch_effect (empty_id_update latitude longitude active) data
           (clock w) (server w)).
Qed.

Lemma GetDriver_eq (driverID : string) (w : World) :
  GetDriver driverID w =
    (match (Get (DriverPrefix +:+ driverID) w).1 with
     | Err redis_Nil => respondWithError http.StatusNotFound "Driver not found"
     | Err err =>
         respondWithError http.StatusInternalServerError
           ("Redis operation failed: " +:+ Error err)
     | Ok driverData =>
         match json.Unmarshal driverData with
         | Err _ =>
             respondWithError http.StatusInternalServerError
               "Failed to parse driver data"
         | Ok driver => respondWithJSON http.StatusOK (DriverBody driver)
         end
     end,
     (Get (DriverPrefix +:+ driverID) w).2).
Proof.
  unfold GetDriver, mbind, M_bind.
  destruct (Get (DriverPrefix +:+ driverID) w) as [[data|[|msg]] w1]; simpl;
    try reflexivity.
  by destruct (json.Unmarshal data).
Qed.

(** C8: after an upsert answered with status 200, a read of the same id made
    before a minute has passed, with nothing written in between, and itself
    answered by the server, returns the driver with the id, latitude,
    longitude and active flag of the update, provided the snapshot survives
    encoding and decoding. *)
Theorem read_after_upsert_returns_update
    (update : LocationUpdate.t) (w : World) (dt : Duration) :
  StatusCode (UpdateDriverLocation (Ok update) w).1 = http.StatusOK →
  json.round_trips (snapshot update (clock w)) →
  0 ≤ dt < time.Minute →
  next_fault (UpdateDriverLocation (Ok update) w).2 = None →
  ∃ d,
    (GetDriver (LocationUpdate.DriverID update)
       (tick dt (UpdateDriverLocation (Ok update) w).2)).1 =
      respondWithJSON http.StatusOK (DriverBody d) ∧
    Driver.ID d = LocationUpdate.DriverID update ∧
    Driver.Latitude d = LocationUpdate.Latitude update ∧
    Driver.Longitude d = LocationUpdate.Longitude update ∧
    Driver.IsActive d = LocationUpdate.IsActive update.
Proof.
  intros Hok Hrt Hdt. destruct (upsert_ok_inv _ _ Hok) as (data & Hdata & Hw).
  rewrite (upsert_healthy _ _ _ Hdata Hw). simpl. intros Hnext.
  exists (snapshot update (clock w)). split; [|done].
  rewrite GetDriver_eq. unfold Get. rewrite call_eq.
  replace (next_fault _) with (@None string) by done. simpl.
  destruct (upsert_batch_effect update data (clock w) (server w)) as (Hstored & _).
  unfold redis.get. simpl in Hstored |- *. rewrite Hstored.
  unfold redis.live. simpl. rewrite bool_decide_eq_true_2 by lia.
  by rewrite (Hrt data Hdata).
Qed.

End Store.

(** ** The expiration reaper *)

Lemma onExpired_eq (driverID : string) (w : World) :
  onExpired (DriverPrefix +:+ driverID) w =
    (tt,
     let w' := after_round_trip (cleanup_batch driverID) 2
                 (settled (clock w) (cleanup_batch driverID) (faults w) (server w)) w in
     match first_error (cleanup_batch driverID) (faults w) with
     | Some err =>
         MkWorld (server w') (clock w') (faults w') (wire w')
           (logs w' ++ [("Error cleaning up expired driver " +:+ driverID +:+ ": "
                           +:+ Error err)%string])
     | None => w'
     end).
Proof.
  unfold onExpired. rewrite HasPrefix_app, TrimPrefix_app.
  unfold mbind, M_bind. simpl app. rewrite Exec_eq. unfold cleanup_batch.
  destruct (first_error _ _); reflexivity.
Qed.

Lemma cleanup_batch_effect (driverID : string) (now : Time) (db : redis.DB) :
  let db' := foldl (λ db c, redis.apply now c db) db (cleanup_batch driverID) in
  redis.geoset GeoSetKey db' !! driverID = None ∧
  (driverID ∉ redis.set ActiveSetKey db') ∧
  redis.strings db' = redis.strings db.
Proof.
  simpl. unfold redis.geoset, redis.set. simpl. rewrite !lookup_insert_eq. simpl.
  split; [apply lookup_delete_eq|]. split; [|done].
  intros [_ Hid]%elem_of_difference. by destruct Hid; apply elem_of_singleton.
Qed.

(** C6: a notification whose key does not start with the detail-record prefix
    changes nothing and sends nothing. For a key that does, the rest of the
    key is the driver id, and one round trip is made that carries ZREM of the
    id from the geo index and SREM of the id from the active set, each tried
    once. On a server that accepts both, the id is gone from the geo index
    and from the active set and nothing is logged; when one of them fails,
    one line is logged. In either case the listener goes on with the next
    notification. *)
Theorem reaper_handles_notification (key : string) (w : World) :
  (strings.HasPrefix key DriverPrefix = false → onExpired key w = (tt, w)) ∧
  (strings.HasPrefix key DriverPrefix = true →
   ∃ driverID,
     key = DriverPrefix +:+ driverID ∧
     let w' := (onExpired key w).2 in
     wire w' = wire w ++ [[redis.ZREM GeoSetKey driverID; redis.SREM ActiveSetKey driverID]] ∧
     faults w' = drop 2 (faults w) ∧
     clock w' = clock w ∧
     redis.strings (server w') = redis.strings (server w) ∧
     (healthy 2 w →
      logs w' = logs w ∧
      redis.geoset GeoSetKey (server w') !! driverID = None ∧
      (driverID ∉ redis.set ActiveSetKey (server w'))) ∧
     (¬ healthy 2 w → ∃ line, logs w' = logs w ++ [line])) ∧
  (∀ rest, setupExpirationListener (key :: rest) w =
           setupExpirationListener rest (onExpired key w).2).
Proof.
  split; [|split].
  - intros Hp. unfold onExpired. by rewrite Hp.
  - intros Hp. apply HasPrefix_inv in Hp.
    set (driverID := strings.TrimPrefix key DriverPrefix) in Hp.
    clearbody driverID. subst key. exists driverID. split; [done|].
    rewrite onExpired_eq. cbv zeta.
    pose proof (first_error_None (cleanup_batch driverID) (faults w)) as Hnone.
    destruct (first_error (cleanup_batch driverID) (faults w)) as [err|]; simpl.
    + assert (¬ healthy 2 w) as Hbad.
      { intros Hw. apply Hnone in Hw. discriminate. }
      do 3 (split; [done|]). split; [|split].
      * eapply (settled_preserves (λ db, redis.strings db = redis.strings (server w)));
          [|done]. intros c db' Hc Hdb.
        apply elem_of_cons in Hc as [->|Hc]; [done|].
        by apply list_elem_of_singleton in Hc as ->.
      * intros Hw. by destruct Hbad.
      * intros _. by eexists.
    + assert (healthy 2 w) as Hw by by apply Hnone.
      rewrite (settled_healthy _ (cleanup_batch driverID)) by done.
      destruct (cleanup_batch_effect driverID (clock w) (server w)) as (Hgeo & Hset & Hstr).
      repeat split; done.
  - intros rest. unfold setupExpirationListener. simpl. unfold mbind, M_bind.
    by destruct (onExpired key w) as [[] w'].
Qed.

(** ** The proximity query as a whole *)

Section Query.
Context `{redis.Metric} `{json.Codec}.

Lemma nearby_body_emits (acc : list (gmap string Any)) (loc : redis.GeoLocation) (w : World) :
  server (nearby_body acc loc w).2 = server w ∧
  clock (nearby_body acc loc w).2 = clock w ∧
  ((nearby_body acc loc w).1 = acc ∨
   ∃ m, (nearby_body acc loc w).1 = acc ++ [m] ∧ emits (server w) (clock w) loc m).
Proof.
  rewrite nearby_body_eq. unfold detail, fetched, checked, Get, SIsMember.
  rewrite !call_eq. simpl.
  destruct (next_fault w) as [msg|]; simpl; [by auto|].
  destruct (redis.sismember ActiveSetKey (redis.Name loc) (server w)) eqn:Hmember;
    simpl; [|by auto].
  destruct (next_fault _) as [msg|]; simpl.
  { do 2 (split; [done|]). right. eexists. split; [done|]. split; [done|]. by left. }
  destruct (redis.get _ _ _) as [data|e] eqn:Hget; simpl.
  - destruct (json.Unmarshal data) as [driver|e] eqn:Hparse; simpl;
      do 2 (split; [done|]); right; eexists; (split; [done|]); (split; [done|]).
    + right. by exists data, driver.
    + by left.
  - do 2 (split; [done|]). right. eexists. split; [done|]. split; [done|]. by left.
Qed.

(** The loop keeps the candidates in the order of the index: what it appends
    comes, summary by summary, from a sublist of the locations. *)
Lemma for_range_nearby (locations : list redis.GeoLocation)
    (acc : list (gmap string Any)) (w : World) :
  ∃ kept out,
    kept `sublist_of` locations ∧
    Forall2 (emits (server w) (clock w)) kept out ∧
    (for_range locations nearby_body acc w).1 = acc ++ out ∧
    server (for_range locations nearby_body acc w).2 = server w ∧
    clock (for_range locations nearby_body acc w).2 = clock w.
Proof.
  revert acc w. induction locations as [|loc rest IH]; intros acc w.
  - exists [], []. simpl. rewrite app_nil_r. by repeat split; constructor.
  - simpl. unfold mbind, M_bind.
    destruct (nearby_body_emits acc loc w) as (Hdb & Hnow & Hout).
    destruct (nearby_body acc loc w) as [acc' w1]. simpl in *.
    destruct (IH acc' w1) as (kept & out & Hsub & Hall & Hres & Hdb' & Hnow').
    rewrite Hdb, Hnow in *.
    destruct Hout as [->|(m & -> & Hm)].
    + exists kept, out. repeat split; try done. by apply sublist_cons.
    + exists (loc :: kept), (m :: out). repeat split; try done.
      * by apply sublist_skip.
      * by constructor.
      * by rewrite Hres, <- app_assoc.
Qed.

Lemma emits_distance (db : redis.DB) (now : Time) (loc : redis.GeoLocation)
    (m : gmap string Any) :
  emits db now loc m → distance_of m = Some (redis.Dist loc).
Proof. by intros [_ [->|(data & driver & _ & _ & ->)]]. Qed.

Lemma georadius_capped (key : string) (longitude latitude : float64)
    (q : redis.GeoRadiusQuery) (db : redis.DB) :
  0 < redis.Count q →
  Z.of_nat (length (redis.georadius key longitude latitude q db)) ≤ redis.Count q.
Proof.
  intros Hcount. unfold redis.georadius.
  rewrite bool_decide_eq_true_2 by done. rewrite length_take. lia.
Qed.

(** A request that differs from another only in fields that the defaults
    overwrite is the same request. *)
Lemma FindNearbyDrivers_defaults (req req' : NearbyRequest.t) (w : World) :
  with_defaults req = with_defaults req' →
  FindNearbyDrivers (Ok req) w = FindNearbyDrivers (Ok req') w.
Proof. intros Heq. rewrite !FindNearbyDrivers_eq. cbv zeta. by rewrite Heq. Qed.

(** C7: a query with radius 0 is the query with radius 5, and a query with
    limit 0 is the query with limit 10: same response, same commands sent,
    same world afterwards. *)
Theorem nearby_defaults (latitude longitude radius : float64) (limit : Z) (w : World) :
  (radius =? 0)%float = true →
  FindNearbyDrivers (Ok (NearbyRequest.Build latitude longitude radius limit)) w =
    FindNearbyDrivers (Ok (NearbyRequest.Build latitude longitude 5 limit)) w ∧
  ∀ radius',
    FindNearbyDrivers (Ok (NearbyRequest.Build latitude longitude radius' 0)) w =
      FindNearbyDrivers (Ok (NearbyRequest.Build latitude longitude radius' 10)) w.
Proof.
  intros Hzero. split.
  - apply FindNearbyDrivers_defaults. unfold with_defaults. simpl. rewrite Hzero.
    by change ((5 =? 0)%float) with false.
  - intros radius'. apply FindNearbyDrivers_defaults. unfold with_defaults. simpl.
    by destruct (radius' =? 0)%float.
Qed.

Lemma emitted_distances (db : redis.DB) (now : Time) (kept : list redis.GeoLocation)
    (out : list (gmap string Any)) :
  Forall2 (emits db now) kept out → omap distance_of out = redis.Dist <$> kept.
Proof.
  induction 1 as [|loc m kept out Hm _ IH]; [done|].
  change (omap distance_of (m :: out)) with
    (match distance_of m with
     | Some d => d :: omap distance_of out
     | None => omap distance_of out
     end).
  by rewrite (emits_distance _ _ _ _ Hm), IH.
Qed.

(** C4, as the code has it: when the geo index answers, the request is
    answered with status 200 and a list that comes, summary by summary and in
    the same order, from a sublist of the index's answer: every summary
    belongs to a candidate that is in the active set and carries the distance
    the index gave for it. So the list is no longer than the index's answer;
    it has at most [limit] entries when the limit in force (the one of the
    request, or 10 when that is 0) is positive; and it is non-decreasing in
    distance, as the index's answer is. *)
Theorem nearby_keeps_index_order
    (req : NearbyRequest.t) (w : World) (locations : list redis.GeoLocation) :
  (GeoRadius GeoSetKey (NearbyRequest.Longitude (with_defaults req))
     (NearbyRequest.Latitude (with_defaults req))
     (geoOptions (with_defaults req)) w).1 = Ok locations →
  ∃ kept out,
    (FindNearbyDrivers (Ok req) w).1 =
      respondWithJSON http.StatusOK (SummariesBody out) ∧
    kept `sublist_of` locations ∧
    Forall2 (emits (server w) (clock w)) kept out ∧
    omap distance_of out = redis.Dist <$> kept ∧
    (length out ≤ length locations)%nat ∧
    (0 < NearbyRequest.Limit (with_defaults req) →
     Z.of_nat (length out) ≤ NearbyRequest.Limit (with_defaults req)) ∧
    ascending (redis.Dist <$> locations) ∧
    ascending (omap distance_of out).
Proof.
  intros Hq. rewrite FindNearbyDrivers_eq. cbv zeta.
  unfold GeoRadius in *. rewrite call_eq in *. simpl in Hq.
  destruct (next_fault w) as [msg|]; [discriminate|].
  injection Hq as Hlocations. rewrite Hlocations.
  set (w1 := after_round_trip _ 1 (server w) w).
  destruct (for_range_nearby locations [] w1) as (kept & out & Hsub & Hall & Hres & _).
  simpl in Hres, Hall. exists kept, out. rewrite Hres.
  pose proof (emitted_distances _ _ _ _ Hall) as Hdist.
  pose proof (sublist_length _ _ Hsub) as Hlen.
  pose proof (Forall2_length _ _ _ Hall) as Hlen'.
  assert (ascending (redis.Dist <$> locations)) as Hasc.
  { rewrite <- Hlocations. by apply georadius_ascending. }
  repeat split; try done.
  - lia.
  - intros Hlimit. rewrite <- Hlocations in Hlen.
    pose proof (georadius_capped GeoSetKey
      (NearbyRequest.Longitude (with_defaults req))
      (NearbyRequest.Latitude (with_defaults req))
      (geoOptions (with_defaults req)) (server w) Hlimit) as Hcap.
    simpl in Hcap. lia.
  - rewrite Hdist. eapply ascending_sublist; [|exact Hasc].
    by apply fmap_sublist.
Qed.

End Query.

(** ** Invariants of the running service *)

Section Invariants.
Context `{redis.Metric} `{json.Codec}.

Lemma FindNearbyDrivers_server (body : Result NearbyRequest.t) (w : World) :
  server (FindNearbyDrivers body w).2 = server w ∧
  clock (FindNearbyDrivers body w).2 = clock w.
Proof.
  destruct body as [req|e]; [|done].
  rewrite FindNearbyDrivers_eq. cbv zeta. unfold GeoRadius. rewrite call_eq.
  destruct (next_fault w); [done|]. simpl.
  set (w1 := after_round_trip _ 1 (server w) w).
  by destruct (for_range_nearby
       (redis.georadius GeoSetKey (NearbyRequest.Longitude (with_defaults req))
          (NearbyRequest.Latitude (with_defaults req))
          (geoOptions (with_defaults req)) (server w)) [] w1)
    as (_ & _ & _ & _ & _ & -> & ->).
Qed.

Lemma onExpired_server (key : string) (w : World) :
  server (onExpired key w).2 =
    if strings.HasPrefix key DriverPrefix
    then settled (clock w) (cleanup_batch (strings.TrimPrefix key DriverPrefix))
           (faults w) (server w)
    else server w.
Proof.
  destruct (strings.HasPrefix key DriverPrefix) eqn:Hp.
  - apply HasPrefix_inv in Hp.
    set (driverID := strings.TrimPrefix key DriverPrefix) in *.
    clearbody driverID. subst key. rewrite onExpired_eq. cbv zeta.
    by destruct (first_error _ _).
  - unfold onExpired. by rewrite Hp.
Qed.

(** A property of the server that every write command of an event keeps, and
    that the loss of a string key keeps, is kept by the event. *)
Lemma run_preserves (Q : redis.DB → Prop) (e : Event) (w : World) :
  (∀ c db, c ∈ commands_of e w → Q db → Q (redis.apply (clock w) c db)) →
  (∀ key db, Q db →
     Q (redis.MkDB (delete key (redis.strings db)) (redis.geosets db) (redis.sets db))) →
  Q (server w) → Q (server (run w e)).
Proof.
  intros Hcmd Hdrop HQ. destruct e as [[update|err]|body|driverID|d|key delivered|plan];
    unfold run; simpl in Hcmd; try done.
  - rewrite UpdateDriverLocation_eq.
    destruct (json.Marshal _) as [data|err]; [|done]. simpl.
    by apply settled_preserves.
  - by destruct (FindNearbyDrivers_server body w) as [-> _].
  - rewrite GetDriver_eq. unfold Get. by rewrite call_eq.
  - unfold expire. destruct (redis.strings (server w) !! key) as [entry|]; [|done].
    destruct (redis.live (clock w) entry); [done|].
    destruct delivered; [|by apply Hdrop].
    rewrite onExpired_server. simpl.
    destruct (strings.HasPrefix key DriverPrefix); [|by apply Hdrop].
    apply settled_preserves; [done|]. by apply Hdrop.
Qed.

Lemma run_well_keyed (e : Event) (w : World) :
  json.keeps_id → well_keyed (server w) → well_keyed (server (run w e)).
Proof.
  intros Hid. apply run_preserves.
  - intros c db Hc Hdb. destruct e as [[update|]| | | |key [|]|]; simpl in Hc;
      try by apply elem_of_nil in Hc.
    + destruct (json.Marshal _) as [data|] eqn:Hdata; [|by apply elem_of_nil in Hc].
      unfold upsert_batch in Hc. rewrite !elem_of_cons in Hc.
      destruct Hc as [->|[->|[->|Hc]]]; [| |by destruct (LocationUpdate.IsActive update)
                                         |by apply elem_of_nil in Hc]; [|done].
      intros key entry d. simpl. rewrite lookup_insert.
      case_decide as Hkey; [|by apply Hdb].
      intros [= <-] Hparse. simpl in Hparse.
      by rewrite (Hid _ _ _ Hdata Hparse).
    + destruct (strings.HasPrefix key DriverPrefix); [|by apply elem_of_nil in Hc].
      unfold cleanup_batch in Hc. rewrite !elem_of_cons in Hc.
      destruct Hc as [->|[->|Hc]]; [done|done|by apply elem_of_nil in Hc].
  - intros key db Hdb key' entry d. simpl. rewrite lookup_delete.
    case_decide; [done|]. by apply Hdb.
Qed.

Lemma run_inactive (id : string) (e : Event) (w : World) :
  quiet id e →
  id ∉ redis.set ActiveSetKey (server w) →
  id ∉ redis.set ActiveSetKey (server (run w e)).
Proof.
  intros Hquiet. apply (run_preserves (λ db, id ∉ redis.set ActiveSetKey db)).
  - intros c db Hc Hdb. destruct e as [[update|]| | | |key [|]|]; simpl in Hc;
      try by apply elem_of_nil in Hc.
    + destruct (json.Marshal _) as [data|]; [|by apply elem_of_nil in Hc].
      unfold upsert_batch in Hc. rewrite !elem_of_cons in Hc.
      destruct Hc as [->|[->|[->|Hc]]]; [done|done| |by apply elem_of_nil in Hc].
      simpl in Hquiet.
      destruct (LocationUpdate.IsActive update); unfold redis.set in *; simpl;
        rewrite lookup_insert_eq; simpl.
      * intros [Hin|Hin]%elem_of_union; [|done].
        apply elem_of_singleton in Hin. by specialize (Hquiet (eq_sym Hin)).
      * by intros [Hin _]%elem_of_difference.
    + destruct (strings.HasPrefix key DriverPrefix); [|by apply elem_of_nil in Hc].
      unfold cleanup_batch in Hc. rewrite !elem_of_cons in Hc.
      destruct Hc as [->|[->|Hc]]; [done| |by apply elem_of_nil in Hc].
      unfold redis.set in *; simpl. rewrite lookup_insert_eq; simpl.
      by intros [Hin _]%elem_of_difference.
  - done.
Qed.

Lemma reachable_well_keyed (w : World) :
  json.keeps_id → reachable w → well_keyed (server w).
Proof.
  intros Hid (t0 & events & ->).
  assert (well_keyed (server (boot t0))) as Hboot.
  { intros key entry d. simpl. by rewrite lookup_empty. }
  revert Hboot. generalize (boot t0).
  induction events as [|e events IH]; intros w0 Hw0; [done|].
  simpl. apply IH. by apply run_well_keyed.
Qed.

Lemma later_inactive (id : string) (events : list Event) (w : World) :
  Forall (quiet id) events →
  id ∉ redis.set ActiveSetKey (server w) →
  id ∉ redis.set ActiveSetKey (server (foldl run w events)).
Proof.
  revert w. induction events as [|e events IH]; intros w Hquiet Hw; [done|].
  inversion Hquiet; subst. simpl. apply IH; [done|]. by apply run_inactive.
Qed.

Lemma later_well_keyed (events : list Event) (w : World) :
  json.keeps_id → well_keyed (server w) → well_keyed (server (foldl run w events)).
Proof.
  intros Hid. revert w. induction events as [|e events IH]; intros w Hw; [done|].
  simpl. apply IH. by apply run_well_keyed.
Qed.

(** On a well keyed server every summary carries the id of a member of the
    active set. *)
Lemma emits_active_id (db : redis.DB) (now : Time) (loc : redis.GeoLocation)
    (m : gmap string Any) :
  well_keyed db → emits db now loc m →
  m !! "id" = Some (AString (redis.Name loc)) ∧
  redis.Name loc ∈ redis.set ActiveSetKey db.
Proof.
  intros Hdb [Hmember Hm]. split.
  - destruct Hm as [->|(data & driver & Hget & Hparse & ->)]; [done|].
    unfold redis.get in Hget.
    destruct (redis.strings db !! _) as [entry|] eqn:Hentry; [|done].
    destruct (redis.live now entry); [|done]. injection Hget as <-.
    pose proof (Hdb _ _ _ Hentry Hparse) as Hkey.
    apply driver_key_inj in Hkey as ->. done.
  - unfold redis.sismember in Hmember. by apply bool_decide_eq_true in Hmember.
Qed.

(** C3: take any reachable state, an upsert in it that reports a driver as
    not active and is answered with status 200, and any events after it among
    which no update reports that driver as active. Then no query, whatever
    its point, radius and limit, lists a summary with the id of that driver. *)
Theorem inactive_driver_is_never_listed
    (w : World) (update : LocationUpdate.t) (later : list Event)
    (body : Result NearbyRequest.t) (out : list (gmap string Any)) (m : gmap string Any) :
  json.keeps_id →
  reachable w →
  LocationUpdate.IsActive update = false →
  StatusCode (UpdateDriverLocation (Ok update) w).1 = http.StatusOK →
  Forall (quiet (LocationUpdate.DriverID update)) later →
  Body (FindNearbyDrivers body
          (foldl run (UpdateDriverLocation (Ok update) w).2 later)).1 = SummariesBody out →
  m ∈ out →
  m !! "id" ≠ Some (AString (LocationUpdate.DriverID update)).
Proof.
  intros Hid Hw Hinactive Hok Hlater Hbody Hm.
  set (id := LocationUpdate.DriverID update) in *.
  pose proof (reachable_well_keyed w Hid Hw) as Hkeyed.
  assert (well_keyed (server (UpdateDriverLocation (Ok update) w).2)) as Hkeyed1
    by exact (run_well_keyed (Update (Ok update)) w Hid Hkeyed).
  assert (id ∉ redis.set ActiveSetKey (server (UpdateDriverLocation (Ok update) w).2))
    as Hgone.
  { destruct (upsert_ok_inv _ _ Hok) as (data & Hdata & Hhealthy).
    rewrite (upsert_healthy _ _ _ Hdata Hhealthy). simpl server.
    destruct (upsert_batch_effect update data (clock w) (server w)) as (_ & _ & Hset).
    intros Hin. apply Hset in Hin. congruence. }
  set (w2 := foldl run (UpdateDriverLocation (Ok update) w).2 later) in *.
  assert (well_keyed (server w2)) as Hkeyed2 by by apply later_well_keyed.
  assert (id ∉ redis.set ActiveSetKey (server w2)) as Hgone2 by by apply later_inactive.
  destruct body as [req|e]; [|done].
  rewrite FindNearbyDrivers_eq in Hbody. cbv zeta in Hbody.
  unfold GeoRadius in Hbody. rewrite call_eq in Hbody.
  destruct (next_fault w2); [done|]. simpl in Hbody.
  match type of Hbody with
  | context [for_range ?l nearby_body [] ?w1] =>
      destruct (for_range_nearby l [] w1) as (kept & out' & _ & Hall & Hres & _)
  end.
  rewrite Hres in Hbody. injection Hbody as <-. simpl in Hall.
  apply list_elem_of_lookup in Hm as [i Hi].
  destruct (Forall2_lookup_r _ _ _ _ _ Hall Hi) as (loc & _ & Hloc).
  destruct (emits_active_id _ _ _ _ Hkeyed2 Hloc) as [Hmid Hin].
  rewrite Hmid. intros [= Hname]. by rewrite Hname in Hin.
Qed.

End Invariants.

(** * Further properties *)

(** ** What the index answers *)

Section IndexAnswer.
Context `{redis.Metric}.

Lemma elem_of_sort_by_dist (y : redis.GeoLocation) (l : list redis.GeoLocation) :
  y ∈ redis.sort_by_dist l ↔ y ∈ l.
Proof.
  unfold redis.sort_by_dist. induction l as [|x l IH]; simpl; [done|].
  by rewrite elem_of_insert_by_dist, elem_of_cons, IH.
Qed.

Lemma length_insert_by_dist (x : redis.GeoLocation) (l : list redis.GeoLocation) :
  length (redis.insert_by_dist x l) = S (length l).
Proof.
  induction l as [|y l IH]; simpl; [done|].
  destruct (redis.Dist x <=? redis.Dist y)%float; simpl; [done | by rewrite IH].
Qed.

Lemma length_sort_by_dist (l : list redis.GeoLocation) :
  length (redis.sort_by_dist l) = length l.
Proof.
  unfold redis.sort_by_dist. induction l as [|x l IH]; simpl; [done|].
  by rewrite length_insert_by_dist, IH.
Qed.

(** Every location of an answer is a member of the index at its stored
    position, with its distance from the centre, and within the radius. *)
Lemma georadius_sound (key : string) (longitude latitude : float64)
    (q : redis.GeoRadiusQuery) (db : redis.DB) (loc : redis.GeoLocation) :
  loc ∈ redis.georadius key longitude latitude q db →
  ∃ position,
    redis.geoset key db !! redis.Name loc = Some position ∧
    loc = redis.located longitude latitude (redis.Name loc, position) ∧
    (redis.Dist loc <=? redis.Radius q)%float = true.
Proof.
  unfold redis.georadius. intros Hloc.
  assert (loc ∈ List.filter (λ loc, (redis.Dist loc <=? redis.Radius q)%float)
            (redis.located longitude latitude <$> map_to_list (redis.geoset key db)))
    as Hhit.
  { assert (∀ l : list redis.GeoLocation,
              loc ∈ (if bool_decide (0 < redis.Count q)
                     then take (Z.to_nat (redis.Count q)) l else l) → loc ∈ l) as Hcut.
    { intros l. case_bool_decide; [|done]. intros Hin.
      eapply elem_of_sublist; [exact Hin | apply sublist_take]. }
    apply Hcut in Hloc. destruct (String.eqb _ _); [|done].
    by rewrite elem_of_sort_by_dist in Hloc. }
  apply list_elem_of_In, filter_In in Hhit as [Hin Hdist].
  apply list_elem_of_In, list_elem_of_fmap in Hin as ([name position] & -> & Hentry).
  apply elem_of_map_to_list in Hentry. by exists position.
Qed.

(** A member within the radius is in the answer when the answer is not cut
    short: no COUNT is sent, or the index has no more members than COUNT. *)
Lemma georadius_complete (key : string) (longitude latitude : float64)
    (q : redis.GeoRadiusQuery) (db : redis.DB) (name : string)
    (position : float64 * float64) :
  redis.geoset key db !! name = Some position →
  (redis.geodist longitude latitude position.1 position.2 <=? redis.Radius q)%float = true →
  redis.Count q ≤ 0 ∨ Z.of_nat (size (redis.geoset key db)) ≤ redis.Count q →
  redis.located longitude latitude (name, position)
    ∈ redis.georadius key longitude latitude q db.
Proof.
  intros Hmember Hdist Hcount. unfold redis.georadius.
  set (hits := List.filter _ _).
  assert (redis.located longitude latitude (name, position) ∈ hits) as Hhit.
  { apply list_elem_of_In, filter_In. split; [|done].
    apply list_elem_of_In, list_elem_of_fmap. exists (name, position).
    split; [done|]. by apply elem_of_map_to_list. }
  assert (length hits ≤ size (redis.geoset key db))%nat as Hlen.
  { unfold hits. rewrite <- length_map_to_list.
    rewrite <- (length_fmap (redis.located longitude latitude)).
    generalize (redis.located longitude latitude <$> map_to_list (redis.geoset key db)).
    intros l. induction l as [|x l IH]; simpl; [done|].
    destruct (redis.Dist x <=? redis.Radius q)%float; simpl; lia. }
  set (ordered := if String.eqb _ _ then _ else _).
  assert (redis.located longitude latitude (name, position) ∈ ordered
          ∧ length ordered = length hits) as [Hin Hordered].
  { unfold ordered. destruct (String.eqb _ _); [|done].
    split; [by rewrite elem_of_sort_by_dist | apply length_sort_by_dist]. }
  case_bool_decide as Hpositive; [|done].
  rewrite take_ge; [done|]. lia.
Qed.

End IndexAnswer.

(** ** Queries: what they send and what they list *)

Section Listing.
Context `{redis.Metric} `{json.Codec}.

Lemma fault_free_next (w : World) : fault_free w → next_fault w = None.
Proof.
  unfold fault_free, next_fault. destruct (faults w) as [|f fs]; [done|].
  by inversion 1.
Qed.

Lemma fault_free_after (batch : list redis.Cmd) (n : nat) (db : redis.DB) (w : World) :
  fault_free w → fault_free (after_round_trip batch n db w).
Proof. unfold fault_free. simpl. apply Forall_drop. Qed.

Lemma fault_free_healthy (n : nat) (w : World) : fault_free w → healthy n w.
Proof. unfold fault_free, healthy. apply Forall_take. Qed.

Lemma nearby_body_world (acc : list (gmap string Any)) (loc : redis.GeoLocation) (w : World) :
  (nearby_body acc loc w).2 = checked loc w ∨ (nearby_body acc loc w).2 = fetched loc w.
Proof.
  rewrite nearby_body_eq.
  destruct (SIsMember _ _ w).1 as [[]|]; [|by left..].
  destruct (detail loc w); by right.
Qed.

Lemma checked_eq (loc : redis.GeoLocation) (w : World) :
  checked loc w =
    after_round_trip [redis.SISMEMBER ActiveSetKey (redis.Name loc)] 1 (server w) w.
Proof. unfold checked, SIsMember. by rewrite call_eq. Qed.

Lemma fetched_eq (loc : redis.GeoLocation) (w : World) :
  fetched loc w =
    after_round_trip [redis.GET (DriverPrefix +:+ redis.Name loc)] 1 (server w)
      (checked loc w).
Proof. unfold fetched, Get. rewrite call_eq. by rewrite checked_eq. Qed.

(** One candidate costs one or two round trips, each a single read, and
    logs nothing. *)
Lemma nearby_body_wire (acc : list (gmap string Any)) (loc : redis.GeoLocation) (w : World) :
  logs (nearby_body acc loc w).2 = logs w ∧
  ∃ trips,
    wire (nearby_body acc loc w).2 = wire w ++ trips ∧
    single_reads trips ∧ (length trips ≤ 2)%nat.
Proof.
  destruct (nearby_body_world acc loc w) as [-> | ->];
    rewrite ?fetched_eq, checked_eq; simpl; (split; [done|]).
  - eexists. split; [done|]. split; [|simpl; lia].
    repeat constructor. by eexists.
  - eexists. split; [by rewrite <- app_assoc|]. split; [|simpl; lia].
    repeat constructor; by eexists.
Qed.

Lemma for_range_wire (locations : list redis.GeoLocation)
    (acc : list (gmap string Any)) (w : World) :
  logs (for_range locations nearby_body acc w).2 = logs w ∧
  ∃ trips,
    wire (for_range locations nearby_body acc w).2 = wire w ++ trips ∧
    single_reads trips ∧ (length trips ≤ 2 * length locations)%nat.
Proof.
  revert acc w. induction locations as [|loc rest IH]; intros acc w; simpl.
  - split; [done|]. exists []. rewrite app_nil_r.
    split; [done|]. split; [apply Forall_nil_2 | simpl; lia].
  - unfold mbind, M_bind.
    destruct (nearby_body_wire acc loc w) as (Hlogs & trips & Hwire & Hreads & Hlen).
    destruct (nearby_body acc loc w) as [acc' w1]. simpl in *.
    destruct (IH acc' w1) as (Hlogs' & trips' & Hwire' & Hreads' & Hlen').
    split; [congruence|]. exists (trips ++ trips').
    rewrite Hwire', Hwire, <- app_assoc. split; [done|].
    split; [by apply Forall_app|]. rewrite length_app. lia.
Qed.

(** When every command is answered the loop is a map over the candidates. *)
Lemma for_range_fault_free (locations : list redis.GeoLocation)
    (acc : list (gmap string Any)) (w : World) :
  fault_free w →
  (for_range locations nearby_body acc w).1 =
    acc ++ omap (summary_of (server w) (clock w)) locations.
Proof.
  revert acc w. induction locations as [|loc rest IH]; intros acc w Hw; simpl.
  - by rewrite app_nil_r.
  - unfold mbind, M_bind.
    assert (fault_free (checked loc w)) as Hchecked
      by (rewrite checked_eq; by apply fault_free_after).
    assert (fault_free (fetched loc w)) as Hfetched
      by (rewrite fetched_eq; by apply fault_free_after).
    pose proof (nearby_body_eq acc loc w) as Hstep.
    unfold detail, Get, SIsMember in Hstep. rewrite !call_eq in Hstep.
    rewrite (fault_free_next w Hw) in Hstep. simpl in Hstep.
    rewrite (fault_free_next _ Hchecked) in Hstep.
    change (omap (summary_of (server w) (clock w)) (loc :: rest)) with
      (match summary_of (server w) (clock w) loc with
       | Some m => m :: omap (summary_of (server w) (clock w)) rest
       | None => omap (summary_of (server w) (clock w)) rest
       end).
    unfold summary_of at 1.
    assert (server (checked loc w) = server w ∧ clock (checked loc w) = clock w
            ∧ server (fetched loc w) = server w ∧ clock (fetched loc w) = clock w)
      as (Hs1 & Hc1 & Hs2 & Hc2) by (rewrite fetched_eq, checked_eq; done).
    rewrite Hs1, Hc1 in Hstep.
    destruct (redis.sismember ActiveSetKey (redis.Name loc) (server w)).
    + destruct (redis.get _ _ _) as [data|e]; [destruct (json.Unmarshal data)|];
        rewrite Hstep; rewrite (IH _ _ Hfetched), Hs2, Hc2, <- app_assoc; done.
    + rewrite Hstep. by rewrite (IH _ _ Hchecked), Hs1, Hc1.
Qed.

End Listing.

Section QueryProperties.
Context `{redis.Metric} `{json.Codec}.

Lemma FindNearbyDrivers_answered (req : NearbyRequest.t) (w : World) :
  next_fault w = None →
  FindNearbyDrivers (Ok req) w =
    (respondWithJSON http.StatusOK
       (SummariesBody
          (for_range (answer req (server w)) nearby_body []
             (after_round_trip
                [redis.GEORADIUS_RO GeoSetKey (NearbyRequest.Longitude (with_defaults req))
                   (NearbyRequest.Latitude (with_defaults req))
                   (geoOptions (with_defaults req))] 1 (server w) w)).1),
     (for_range (answer req (server w)) nearby_body []
        (after_round_trip
           [redis.GEORADIUS_RO GeoSetKey (NearbyRequest.Longitude (with_defaults req))
              (NearbyRequest.Latitude (with_defaults req))
              (geoOptions (with_defaults req))] 1 (server w) w)).2).
Proof.
  intros Hnext. rewrite FindNearbyDrivers_eq. cbv zeta. unfold GeoRadius.
  rewrite call_eq, Hnext. reflexivity.
Qed.

Lemma FindNearbyDrivers_refused (req : NearbyRequest.t) (w : World) (msg : string) :
  next_fault w = Some msg →
  FindNearbyDrivers (Ok req) w =
    (respondWithError http.StatusInternalServerError
       ("Geospatial query failed: " +:+ msg),
     after_round_trip
       [redis.GEORADIUS_RO GeoSetKey (NearbyRequest.Longitude (with_defaults req))
          (NearbyRequest.Latitude (with_defaults req))
          (geoOptions (with_defaults req))] 1 (server w) w).
Proof.
  intros Hnext. rewrite FindNearbyDrivers_eq. cbv zeta. unfold GeoRadius.
  rewrite call_eq, Hnext. reflexivity.
Qed.

(** The summaries of a response come, in order, from a sublist of the
    answer of the index. *)
Lemma FindNearbyDrivers_listing (body : Result NearbyRequest.t) (w : World)
    (out : list (gmap string Any)) :
  Body (FindNearbyDrivers body w).1 = SummariesBody out →
  ∃ req kept,
    body = Ok req ∧
    kept `sublist_of` answer req (server w) ∧
    Forall2 (emits (server w) (clock w)) kept out.
Proof.
  destruct body as [req|e]; [|done]. intros Hbody. exists req.
  destruct (next_fault w) as [msg|] eqn:Hnext.
  { by rewrite (FindNearbyDrivers_refused _ _ _ Hnext) in Hbody. }
  rewrite (FindNearbyDrivers_answered _ _ Hnext) in Hbody. simpl in Hbody.
  match type of Hbody with
  | context [for_range ?l nearby_body [] ?w1] =>
      destruct (for_range_nearby l [] w1) as (kept & out' & Hsub & Hall & Hres & _)
  end.
  rewrite Hres in Hbody. injection Hbody as <-. by exists kept.
Qed.

(** X1: a proximity query never writes. Whatever its payload and whatever
    fails, the server, the clock and the log are as before, and every round
    trip it makes carries a single read command; a payload that does not
    decode is answered 400 without any round trip. *)
Theorem query_only_reads (body : Result NearbyRequest.t) (w : World) :
  server (FindNearbyDrivers body w).2 = server w ∧
  clock (FindNearbyDrivers body w).2 = clock w ∧
  logs (FindNearbyDrivers body w).2 = logs w ∧
  (∃ trips,
     wire (FindNearbyDrivers body w).2 = wire w ++ trips ∧ single_reads trips) ∧
  (∀ e, FindNearbyDrivers (Err e) w =
        (respondWithError http.StatusBadRequest "Invalid request payload", w)).
Proof.
  destruct (FindNearbyDrivers_server body w) as [Hserver Hclock].
  do 2 (split; [done|]). split; [|split; [|done]].
  - destruct body as [req|e]; [|done].
    destruct (next_fault w) as [msg|] eqn:Hnext.
    + by rewrite (FindNearbyDrivers_refused _ _ _ Hnext).
    + rewrite (FindNearbyDrivers_answered _ _ Hnext). simpl.
      match goal with
      | |- context [for_range ?l nearby_body [] ?w1] =>
          by destruct (for_range_wire l [] w1) as [-> _]
      end.
  - destruct body as [req|e];
      [|exists []; rewrite app_nil_r; split; [done | apply Forall_nil_2]].
    destruct (next_fault w) as [msg|] eqn:Hnext.
    + rewrite (FindNearbyDrivers_refused _ _ _ Hnext). simpl.
      eexists. split; [done|]. repeat constructor. by eexists.
    + rewrite (FindNearbyDrivers_answered _ _ Hnext). simpl.
      match goal with
      | |- context [for_range ?l nearby_body [] ?w1] =>
          destruct (for_range_wire l [] w1) as (_ & trips & -> & Hreads & _)
      end.
      simpl. rewrite <- app_assoc. eexists. split; [done|].
      apply Forall_app. split; [|done]. repeat constructor. by eexists.
Qed.

(** X2: a proximity query makes one round trip for the search and at most
    two for each location of the answer (membership, then detail record), so
    at most 1 + 2 * limit when the limit in force is positive. *)
Theorem query_round_trips_bounded (req : NearbyRequest.t) (w : World) :
  ∃ trips,
    wire (FindNearbyDrivers (Ok req) w).2 = wire w ++ trips ∧
    (1 ≤ length trips ≤ 1 + 2 * length (answer req (server w)))%nat ∧
    (0 < NearbyRequest.Limit (with_defaults req) →
     Z.of_nat (length trips) ≤ 1 + 2 * NearbyRequest.Limit (with_defaults req)).
Proof.
  destruct (next_fault w) as [msg|] eqn:Hnext.
  - rewrite (FindNearbyDrivers_refused _ _ _ Hnext). simpl.
    eexists. split; [done|]. simpl. split; lia.
  - rewrite (FindNearbyDrivers_answered _ _ Hnext). simpl.
    match goal with
    | |- context [for_range ?l nearby_body [] ?w1] =>
        destruct (for_range_wire l [] w1) as (_ & trips & -> & _ & Hlen)
    end.
    simpl. rewrite <- app_assoc. eexists. split; [done|].
    rewrite length_app. simpl. split; [lia|].
    intros Hlimit.
    pose proof (georadius_capped GeoSetKey
      (NearbyRequest.Longitude (with_defaults req))
      (NearbyRequest.Latitude (with_defaults req))
      (geoOptions (with_defaults req)) (server w) Hlimit) as Hcap.
    unfold answer in Hlen. simpl in Hcap. lia.
Qed.

Lemma FindNearbyDrivers_fault_free (req : NearbyRequest.t) (w : World) :
  fault_free w →
  (FindNearbyDrivers (Ok req) w).1 =
    respondWithJSON http.StatusOK
      (SummariesBody (omap (summary_of (server w) (clock w)) (answer req (server w)))).
Proof.
  intros Hw. rewrite (FindNearbyDrivers_answered _ _ (fault_free_next w Hw)). simpl.
  rewrite for_range_fault_free by by apply fault_free_after. done.
Qed.

(** X3: when every command is answered, a proximity query loses no
    candidate: it lists exactly one summary for each location of the index's
    answer that is in the active set, in the order of the answer, namely the
    fields of the detail record with the distance of the index when the
    record is live and parses, and the fallback otherwise. *)
Theorem fault_free_query_lists_active_candidates (req : NearbyRequest.t) (w : World) :
  fault_free w →
  ∃ out,
    (FindNearbyDrivers (Ok req) w).1 =
      respondWithJSON http.StatusOK (SummariesBody out) ∧
    out = omap (summary_of (server w) (clock w)) (answer req (server w)) ∧
    length out =
      length (List.filter
                (λ loc, redis.sismember ActiveSetKey (redis.Name loc) (server w))
                (answer req (server w))).
Proof.
  intros Hw. eexists. split; [by apply FindNearbyDrivers_fault_free|].
  split; [done|]. generalize (answer req (server w)). intros l.
  induction l as [|loc l IH]; [done|].
  change (omap (summary_of (server w) (clock w)) (loc :: l)) with
    (match summary_of (server w) (clock w) loc with
     | Some m => m :: omap (summary_of (server w) (clock w)) l
     | None => omap (summary_of (server w) (clock w)) l
     end).
  unfold summary_of at 1. simpl.
  destruct (redis.sismember _ _ _); simpl; by rewrite IH.
Qed.

(** X4: no summary is farther than the radius in force: every summary of a
    response carries a distance that is at most the radius of the request,
    or 5 when that is 0. *)
Theorem listed_drivers_are_within_radius (body : Result NearbyRequest.t) (w : World)
    (out : list (gmap string Any)) (m : gmap string Any) :
  Body (FindNearbyDrivers body w).1 = SummariesBody out →
  m ∈ out →
  ∃ req d,
    body = Ok req ∧ distance_of m = Some d ∧
    (d <=? NearbyRequest.Radius (with_defaults req))%float = true.
Proof.
  intros Hbody Hm.
  destruct (FindNearbyDrivers_listing _ _ _ Hbody) as (req & kept & -> & Hsub & Hall).
  apply list_elem_of_lookup in Hm as [i Hi].
  destruct (Forall2_lookup_r _ _ _ _ _ Hall Hi) as (loc & Hloc & Hemits).
  exists req, (redis.Dist loc). split; [done|]. split; [by eapply emits_distance|].
  assert (loc ∈ answer req (server w)) as Hin.
  { eapply elem_of_sublist; [|exact Hsub]. by eapply list_elem_of_lookup_2. }
  by destruct (georadius_sound _ _ _ _ _ _ Hin) as (_ & _ & _ & Hdist).
Qed.

(** X5: in a reachable state, every summary of a response carries the id of
    a driver that is, at the time of the query, both in the active set and
    in the geo index. *)
Theorem listed_drivers_are_active_and_indexed (body : Result NearbyRequest.t) (w : World)
    (out : list (gmap string Any)) (m : gmap string Any) :
  json.keeps_id →
  reachable w →
  Body (FindNearbyDrivers body w).1 = SummariesBody out →
  m ∈ out →
  ∃ id,
    m !! "id" = Some (AString id) ∧
    id ∈ redis.set ActiveSetKey (server w) ∧
    is_Some (redis.geoset GeoSetKey (server w) !! id).
Proof.
  intros Hid Hw Hbody Hm.
  destruct (FindNearbyDrivers_listing _ _ _ Hbody) as (req & kept & -> & Hsub & Hall).
  apply list_elem_of_lookup in Hm as [i Hi].
  destruct (Forall2_lookup_r _ _ _ _ _ Hall Hi) as (loc & Hloc & Hemits).
  destruct (emits_active_id _ _ _ _ (reachable_well_keyed w Hid Hw) Hemits)
    as [Hmid Hactive].
  exists (redis.Name loc). do 2 (split; [done|]).
  assert (loc ∈ answer req (server w)) as Hin.
  { eapply elem_of_sublist; [|exact Hsub]. by eapply list_elem_of_lookup_2. }
  destruct (georadius_sound _ _ _ _ _ _ Hin) as (position & -> & _). by eexists.
Qed.

End QueryProperties.

(** ** Upserts: outcomes, failures and composition *)

Section UpsertProperties.
Context `{json.Codec}.

(** X6: the three outcomes of an upsert. A payload that does not decode is
    answered 400, and a snapshot that does not encode is answered 500, in
    both cases without any round trip. Otherwise the answer is 200 exactly
    when the three commands are accepted, and 500 with the message of the
    first command that failed when one is not. *)
Theorem upsert_outcomes (update : LocationUpdate.t) (w : World) :
  (∀ e, UpdateDriverLocation (Err e) w =
        (respondWithError http.StatusBadRequest "Invalid request payload", w)) ∧
  (∀ e, json.Marshal (snapshot update (clock w)) = Err e →
        UpdateDriverLocation (Ok update) w =
          (respondWithError http.StatusInternalServerError
             "Failed to serialize driver data", w)) ∧
  (StatusCode (UpdateDriverLocation (Ok update) w).1 = http.StatusOK ↔
   ∃ data, json.Marshal (snapshot update (clock w)) = Ok data ∧ healthy 3 w) ∧
  (∀ data err,
     json.Marshal (snapshot update (clock w)) = Ok data →
     first_error (upsert_batch update data) (faults w) = Some err →
     (UpdateDriverLocation (Ok update) w).1 =
       respondWithError http.StatusInternalServerError
         ("Redis operation failed: " +:+ Error err)).
Proof.
  split; [done|]. split; [|split].
  - intros e He. by rewrite UpdateDriverLocation_eq, He.
  - split; [apply upsert_ok_inv|].
    intros (data & Hdata & Hw). by rewrite (upsert_healthy _ _ _ Hdata Hw).
  - intros data err Hdata Herr. by rewrite UpdateDriverLocation_eq, Hdata, Herr.
Qed.

(** X7: an upsert touches the views of its own driver only. For any other
    id the detail record, the entry of the geo index and the membership of
    the active set are as before, whatever fails. *)
Theorem upsert_leaves_other_drivers_alone
    (update : LocationUpdate.t) (w : World) (id : string) :
  LocationUpdate.DriverID update ≠ id →
  redis.strings (server (UpdateDriverLocation (Ok update) w).2) !! (DriverPrefix +:+ id) =
    redis.strings (server w) !! (DriverPrefix +:+ id) ∧
  redis.geoset GeoSetKey (server (UpdateDriverLocation (Ok update) w).2) !! id =
    redis.geoset GeoSetKey (server w) !! id ∧
  (id ∈ redis.set ActiveSetKey (server (UpdateDriverLocation (Ok update) w).2) ↔
   id ∈ redis.set ActiveSetKey (server w)).
Proof.
  intros Hother. rewrite UpdateDriverLocation_eq.
  destruct (json.Marshal _) as [data|e]; [|done]. simpl.
  apply (settled_preserves
           (λ db, redis.strings db !! (DriverPrefix +:+ id) =
                    redis.strings (server w) !! (DriverPrefix +:+ id) ∧
                  redis.geoset GeoSetKey db !! id =
                    redis.geoset GeoSetKey (server w) !! id ∧
                  (id ∈ redis.set ActiveSetKey db ↔
                   id ∈ redis.set ActiveSetKey (server w)))); [|done].
  intros c db Hc (Hstrings & Hgeo & Hset).
  unfold upsert_batch in Hc. rewrite !elem_of_cons in Hc.
  destruct Hc as [->|[->|[->|Hc]]]; [| | |by apply elem_of_nil in Hc].
  - split; [|done]. simpl. rewrite lookup_insert_ne; [done|].
    intros Hkey. by apply driver_key_inj in Hkey.
  - split; [done|]. split; [|done]. unfold redis.geoset in *. simpl.
    rewrite lookup_insert_eq. simpl. by rewrite lookup_insert_ne.
  - rewrite <- Hset. unfold redis.set.
    destruct (LocationUpdate.IsActive update); (split; [done|]); (split; [done|]);
      simpl; rewrite lookup_insert_eq; simpl.
    + rewrite elem_of_union, elem_of_singleton.
      split; [intros [Heq|Hin]; [congruence | done] | by right].
    + rewrite elem_of_difference, elem_of_singleton.
      split; [by intros [Hin _] | intros Hin; split; [done | congruence]].
Qed.

(** X8: a failed upsert is not rolled back. When the SET fails and the two
    other commands are accepted, the answer is 500 with the message of the
    SET, the detail records are as before, and yet the geo index has the new
    coordinates and the active set the new membership. *)
Theorem failed_set_is_not_rolled_back
    (update : LocationUpdate.t) (w : World) (data msg : string)
    (rest : list (option string)) :
  json.Marshal (snapshot update (clock w)) = Ok data →
  faults w = Some msg :: rest →
  Forall (λ f, f = None) (take 2 rest) →
  (UpdateDriverLocation (Ok update) w).1 =
    respondWithError http.StatusInternalServerError
      ("Redis operation failed: " +:+ msg) ∧
  redis.strings (server (UpdateDriverLocation (Ok update) w).2) =
    redis.strings (server w) ∧
  redis.geoset GeoSetKey (server (UpdateDriverLocation (Ok update) w).2)
    !! LocationUpdate.DriverID update =
    Some (LocationUpdate.Longitude update, LocationUpdate.Latitude update) ∧
  (LocationUpdate.DriverID update
     ∈ redis.set ActiveSetKey (server (UpdateDriverLocation (Ok update) w).2)
   ↔ LocationUpdate.IsActive update = true).
Proof.
  intros Hdata Hfaults Hrest. rewrite UpdateDriverLocation_eq, Hdata, Hfaults.
  unfold upsert_batch.
  change (first_error (?c :: ?cs) (Some msg :: rest)) with (Some (errorString msg)).
  change (settled ?now (?c :: ?cs) (Some msg :: rest) ?db) with (settled now cs rest db).
  rewrite (settled_healthy (clock w) _ rest (server w)) by done.
  split; [done|]. unfold redis.geoset, redis.set.
  destruct (LocationUpdate.IsActive update); simpl; rewrite !lookup_insert_eq; simpl;
    rewrite ?lookup_insert_eq.
  - split; [done|]. split; [done|]. split; [done|]. intros _.
    apply elem_of_union_l. by apply elem_of_singleton.
  - split; [done|]. split; [done|]. split; [|done].
    intros [_ Hid]%elem_of_difference. by destruct Hid; apply elem_of_singleton.
Qed.

End UpsertProperties.

Section UpsertComposition.
Context `{json.Codec}.

Lemma upsert_fault_free (update : LocationUpdate.t) (w : World) :
  fault_free w → fault_free (UpdateDriverLocation (Ok update) w).2.
Proof.
  intros Hw. rewrite UpdateDriverLocation_eq.
  destruct (json.Marshal _); [|done]. by apply fault_free_after.
Qed.

(** X9: the last accepted upsert of a driver wins. After two accepted
    upserts for the same id, the server is what the second alone would have
    left: the first one leaves no trace in any of the three views. *)
Theorem last_upsert_wins
    (first second : LocationUpdate.t) (w : World) (dt : Duration) (data data' : string) :
  LocationUpdate.DriverID first = LocationUpdate.DriverID second →
  fault_free w →
  json.Marshal (snapshot first (clock w)) = Ok data →
  json.Marshal (snapshot second (clock (tick dt w))) = Ok data' →
  server (UpdateDriverLocation (Ok second)
            (tick dt (UpdateDriverLocation (Ok first) w).2)).2 =
    server (UpdateDriverLocation (Ok second) (tick dt w)).2.
Proof.
  intros Hid Hw Hdata Hdata'.
  rewrite (upsert_healthy first w data Hdata) by by apply fault_free_healthy.
  rewrite (upsert_healthy second (tick dt w) data' Hdata')
    by by apply fault_free_healthy.
  rewrite (upsert_healthy second _ data').
  2: done.
  2: { apply fault_free_healthy. unfold fault_free. simpl. by apply Forall_drop. }
  unfold upsert_batch. rewrite Hid.
  destruct (LocationUpdate.IsActive first), (LocationUpdate.IsActive second); simpl;
    repeat (progress (unfold redis.geoset, redis.set; simpl;
                      rewrite ?lookup_insert_eq; simpl));
    rewrite !insert_insert_eq;
    f_equal; f_equal; apply set_eq; intros x;
    repeat (rewrite elem_of_union || rewrite elem_of_difference
            || rewrite elem_of_singleton);
    destruct (decide (x = LocationUpdate.DriverID second)); tauto.
Qed.

End UpsertComposition.

(** ** From a report to a listing *)

Section ReportThenQuery.
Context `{redis.Metric} `{json.Codec}.

(** After an accepted report of an active driver, later on, the driver is
    a candidate of every query that covers it and is not cut short, and the
    membership check finds it. *)
Lemma reported_driver_is_candidate
    (update : LocationUpdate.t) (w : World) (data : string) (dt : Duration)
    (req : NearbyRequest.t) :
  fault_free w →
  json.Marshal (snapshot update (clock w)) = Ok data →
  LocationUpdate.IsActive update = true →
  (redis.geodist (NearbyRequest.Longitude (with_defaults req))
     (NearbyRequest.Latitude (with_defaults req))
     (LocationUpdate.Longitude update) (LocationUpdate.Latitude update)
   <=? NearbyRequest.Radius (with_defaults req))%float = true →
  NearbyRequest.Limit (with_defaults req) ≤ 0 ∨
  Z.of_nat (size (redis.geoset GeoSetKey
                    (server (UpdateDriverLocation (Ok update) w).2)))
    ≤ NearbyRequest.Limit (with_defaults req) →
  candidate (NearbyRequest.Longitude (with_defaults req))
    (NearbyRequest.Latitude (with_defaults req)) update
    ∈ answer req (server (tick dt (UpdateDriverLocation (Ok update) w).2)) ∧
  redis.sismember ActiveSetKey (LocationUpdate.DriverID update)
    (server (tick dt (UpdateDriverLocation (Ok update) w).2)) = true ∧
  redis.strings (server (tick dt (UpdateDriverLocation (Ok update) w).2))
    !! (DriverPrefix +:+ LocationUpdate.DriverID update) =
    Some (data, Some (clock w + time.Minute)) ∧
  fault_free (tick dt (UpdateDriverLocation (Ok update) w).2) ∧
  clock (tick dt (UpdateDriverLocation (Ok update) w).2) = clock w + Z.max 0 dt.
Proof.
  intros Hw Hdata Hactive Hdist Hcut.
  rewrite (upsert_healthy update w data Hdata) in * by by apply fault_free_healthy.
  simpl in *.
  destruct (upsert_batch_effect update data (clock w) (server w))
    as (Hstored & Hindexed & Hmember).
  split; [|split; [|split; [|split]]].
  - unfold answer, candidate. by apply georadius_complete.
  - unfold redis.sismember. apply bool_decide_eq_true. by apply Hmember.
  - done.
  - unfold fault_free. simpl. by apply Forall_drop.
  - done.
Qed.

(** X10: a reported driver is found. After an accepted report of an active
    driver, a query made less than a minute later, with every command
    answered, whose radius covers the driver and whose limit does not cut the
    answer short, lists the driver with the fields of the report and the
    distance of the index, provided the snapshot survives encoding and
    decoding. *)
Theorem reported_driver_is_found
    (update : LocationUpdate.t) (w : World) (data : string) (dt : Duration)
    (req : NearbyRequest.t) :
  fault_free w →
  json.Marshal (snapshot update (clock w)) = Ok data →
  json.round_trips (snapshot update (clock w)) →
  LocationUpdate.IsActive update = true →
  0 ≤ dt < time.Minute →
  (redis.geodist (NearbyRequest.Longitude (with_defaults req))
     (NearbyRequest.Latitude (with_defaults req))
     (LocationUpdate.Longitude update) (LocationUpdate.Latitude update)
   <=? NearbyRequest.Radius (with_defaults req))%float = true →
  NearbyRequest.Limit (with_defaults req) ≤ 0 ∨
  Z.of_nat (size (redis.geoset GeoSetKey
                    (server (UpdateDriverLocation (Ok update) w).2)))
    ≤ NearbyRequest.Limit (with_defaults req) →
  ∃ out,
    (FindNearbyDrivers (Ok req) (tick dt (UpdateDriverLocation (Ok update) w).2)).1 =
      respondWithJSON http.StatusOK (SummariesBody out) ∧
    driverWithDist (snapshot update (clock w))
      (candidate (NearbyRequest.Longitude (with_defaults req))
         (NearbyRequest.Latitude (with_defaults req)) update) ∈ out.
Proof.
  intros Hw Hdata Hrt Hactive Hdt Hdist Hcut.
  destruct (reported_driver_is_candidate update w data dt req Hw Hdata Hactive Hdist Hcut)
    as (Hin & Hmember & Hstored & Hfree & Hclock).
  set (w1 := tick dt (UpdateDriverLocation (Ok update) w).2) in *. clearbody w1.
  eexists. split; [by apply FindNearbyDrivers_fault_free|].
  apply list_elem_of_omap. eexists. split; [exact Hin|].
  unfold summary_of, candidate, redis.located. simpl. rewrite Hmember.
  unfold redis.get. rewrite Hstored, Hclock. unfold redis.live. simpl.
  rewrite bool_decide_eq_true_2 by lia. simpl. by rewrite (Hrt data Hdata).
Qed.

(** X11: a silent driver stays listed. A minute or more after an accepted
    report of an active driver, as long as nothing has removed it from the
    index and the active set, a query with every command answered that covers
    the driver and is not cut short lists it from the index alone: id,
    coordinates and distance of the index, and active. *)
Theorem silent_driver_is_listed_from_index
    (update : LocationUpdate.t) (w : World) (data : string) (dt : Duration)
    (req : NearbyRequest.t) :
  fault_free w →
  json.Marshal (snapshot update (clock w)) = Ok data →
  LocationUpdate.IsActive update = true →
  time.Minute ≤ dt →
  (redis.geodist (NearbyRequest.Longitude (with_defaults req))
     (NearbyRequest.Latitude (with_defaults req))
     (LocationUpdate.Longitude update) (LocationUpdate.Latitude update)
   <=? NearbyRequest.Radius (with_defaults req))%float = true →
  NearbyRequest.Limit (with_defaults req) ≤ 0 ∨
  Z.of_nat (size (redis.geoset GeoSetKey
                    (server (UpdateDriverLocation (Ok update) w).2)))
    ≤ NearbyRequest.Limit (with_defaults req) →
  ∃ out,
    (FindNearbyDrivers (Ok req) (tick dt (UpdateDriverLocation (Ok update) w).2)).1 =
      respondWithJSON http.StatusOK (SummariesBody out) ∧
    fallback (LocationUpdate.DriverID update)
      (candidate (NearbyRequest.Longitude (with_defaults req))
         (NearbyRequest.Latitude (with_defaults req)) update) ∈ out.
Proof.
  intros Hw Hdata Hactive Hdt Hdist Hcut.
  destruct (reported_driver_is_candidate update w data dt req Hw Hdata Hactive Hdist Hcut)
    as (Hin & Hmember & Hstored & Hfree & Hclock).
  set (w1 := tick dt (UpdateDriverLocation (Ok update) w).2) in *. clearbody w1.
  eexists. split; [by apply FindNearbyDrivers_fault_free|].
  apply list_elem_of_omap. eexists. split; [exact Hin|].
  unfold summary_of, candidate, redis.located. simpl. rewrite Hmember.
  unfold redis.get. rewrite Hstored, Hclock. unfold redis.live. simpl.
  rewrite bool_decide_eq_false_2 by lia. done.
Qed.

End ReportThenQuery.

(** ** Reads *)

Section ReadProperties.
Context `{json.Codec}.

(** X12: a read makes one round trip, a GET of the detail record, and
    changes nothing else. It is answered 500 with the message of the error
    when the GET fails, 404 when the key is absent or past its deadline, 500
    when the value does not parse, and 200 with the parsed driver otherwise. *)
Theorem read_outcomes (driverID : string) (w : World) :
  server (GetDriver driverID w).2 = server w ∧
  clock (GetDriver driverID w).2 = clock w ∧
  logs (GetDriver driverID w).2 = logs w ∧
  wire (GetDriver driverID w).2 = wire w ++ [[redis.GET (DriverPrefix +:+ driverID)]] ∧
  (∀ msg, next_fault w = Some msg →
     (GetDriver driverID w).1 =
       respondWithError http.StatusInternalServerError
         ("Redis operation failed: " +:+ msg)) ∧
  (next_fault w = None →
   match redis.strings (server w) !! (DriverPrefix +:+ driverID) with
   | Some entry =>
       if redis.live (clock w) entry then
         (GetDriver driverID w).1 =
           match json.Unmarshal entry.1 with
           | Ok driver => respondWithJSON http.StatusOK (DriverBody driver)
           | Err _ =>
               respondWithError http.StatusInternalServerError
                 "Failed to parse driver data"
           end
       else
         (GetDriver driverID w).1 =
           respondWithError http.StatusNotFound "Driver not found"
   | None =>
       (GetDriver driverID w).1 =
         respondWithError http.StatusNotFound "Driver not found"
   end).
Proof.
  rewrite GetDriver_eq. unfold Get. rewrite call_eq. simpl.
  do 4 (split; [done|]). split.
  - by intros msg ->.
  - intros ->. unfold redis.get.
    destruct (redis.strings (server w) !! _) as [entry|]; [|done].
    by destruct (redis.live (clock w) entry).
Qed.

(** X13: a minute after its last accepted report a driver can no longer be
    read: with nothing written in between and the GET answered, the read is
    answered 404, whether or not the server has already dropped the key. *)
Theorem read_after_a_minute_is_not_found
    (update : LocationUpdate.t) (w : World) (dt : Duration) :
  StatusCode (UpdateDriverLocation (Ok update) w).1 = http.StatusOK →
  time.Minute ≤ dt →
  next_fault (UpdateDriverLocation (Ok update) w).2 = None →
  (GetDriver (LocationUpdate.DriverID update)
     (tick dt (UpdateDriverLocation (Ok update) w).2)).1 =
    respondWithError http.StatusNotFound "Driver not found".
Proof.
  intros Hok Hdt. destruct (upsert_ok_inv _ _ Hok) as (data & Hdata & Hw).
  rewrite (upsert_healthy _ _ _ Hdata Hw). simpl. intros Hnext.
  rewrite GetDriver_eq. unfold Get. rewrite call_eq.
  replace (next_fault _) with (@None string) by done. simpl.
  destruct (upsert_batch_effect update data (clock w) (server w)) as (Hstored & _).
  unfold redis.get. simpl in Hstored |- *. rewrite Hstored.
  unfold redis.live. simpl. by rewrite bool_decide_eq_false_2 by lia.
Qed.

End ReadProperties.

(** ** The reaper at work *)

Section ReaperProperties.
Context `{redis.Metric} `{json.Codec}.

(** X14: expiry converges. When the detail record of a driver is past its
    deadline, once the server has dropped it and the listener has received
    the notification, with its two commands accepted, the driver is gone
    from the three views and nothing is logged: no query has it as a
    candidate any more. *)
Theorem expiry_removes_driver_everywhere
    (id : string) (w : World) (entry : string * option Time) :
  redis.strings (server w) !! (DriverPrefix +:+ id) = Some entry →
  redis.live (clock w) entry = false →
  healthy 2 w →
  redis.strings (server (expire (DriverPrefix +:+ id) true w))
    !! (DriverPrefix +:+ id) = None ∧
  redis.geoset GeoSetKey (server (expire (DriverPrefix +:+ id) true w)) !! id = None ∧
  (id ∉ redis.set ActiveSetKey (server (expire (DriverPrefix +:+ id) true w))) ∧
  logs (expire (DriverPrefix +:+ id) true w) = logs w ∧
  (∀ req loc,
     loc ∈ answer req (server (expire (DriverPrefix +:+ id) true w)) →
     redis.Name loc ≠ id).
Proof.
  intros Hentry Hlive Hw. unfold expire. rewrite Hentry, Hlive.
  rewrite onExpired_eq. cbv zeta.
  assert (Forall (λ f, f = None)
            (take (length (cleanup_batch id))
               (faults (drop_key (DriverPrefix +:+ id) w)))) as Hplan by exact Hw.
  rewrite (proj2 (first_error_None _ _) Hplan).
  unfold after_round_trip. cbn [server logs snd].
  rewrite (settled_healthy _ _ _ _ Hplan).
  destruct (cleanup_batch_effect id (clock (drop_key (DriverPrefix +:+ id) w))
              (server (drop_key (DriverPrefix +:+ id) w)))
    as (Hgeo & Hset & Hstrings).
  split; [|split; [|split; [|split]]].
  - rewrite Hstrings. unfold drop_key. cbn [server redis.strings].
    apply lookup_delete_eq.
  - exact Hgeo.
  - exact Hset.
  - done.
  - intros req loc Hloc Hname.
    destruct (georadius_sound _ _ _ _ _ _ Hloc) as (position & Hposition & _).
    rewrite Hname in Hposition. congruence.
Qed.

(** X15: the cleanup of one driver touches no other. For a notification
    whose key is not the detail-record key of [id], the entry of [id] in the
    geo index and its membership of the active set are as before, and so are
    all detail records, whatever fails. *)
Theorem cleanup_leaves_other_drivers_alone (key id : string) (w : World) :
  key ≠ DriverPrefix +:+ id →
  redis.strings (server (onExpired key w).2) = redis.strings (server w) ∧
  redis.geoset GeoSetKey (server (onExpired key w).2) !! id =
    redis.geoset GeoSetKey (server w) !! id ∧
  (id ∈ redis.set ActiveSetKey (server (onExpired key w).2) ↔
   id ∈ redis.set ActiveSetKey (server w)).
Proof.
  intros Hkey. rewrite onExpired_server.
  destruct (strings.HasPrefix key DriverPrefix) eqn:Hp; [|done].
  apply HasPrefix_inv in Hp.
  set (driverID := strings.TrimPrefix key DriverPrefix) in *. clearbody driverID.
  assert (driverID ≠ id) as Hother by (intros ->; by apply Hkey).
  apply (settled_preserves
           (λ db, redis.strings db = redis.strings (server w) ∧
                  redis.geoset GeoSetKey db !! id =
                    redis.geoset GeoSetKey (server w) !! id ∧
                  (id ∈ redis.set ActiveSetKey db ↔
                   id ∈ redis.set ActiveSetKey (server w)))); [|done].
  intros c db Hc (Hstrings & Hgeo & Hset).
  unfold cleanup_batch in Hc. rewrite !elem_of_cons in Hc.
  destruct Hc as [->|[->|Hc]]; [| |by apply elem_of_nil in Hc].
  - split; [done|]. split; [|done]. rewrite <- Hgeo. unfold redis.geoset. simpl.
    rewrite lookup_insert_eq. simpl. by rewrite lookup_delete_ne.
  - split; [done|]. split; [done|]. rewrite <- Hset. unfold redis.set. simpl.
    rewrite lookup_insert_eq. simpl. rewrite elem_of_difference, elem_of_singleton.
    split; [by intros [Hin _] | intros Hin; split; [done | congruence]].
Qed.

End ReaperProperties.

(** ** The defaults of a query *)

(** X16: the defaults replace exactly the value 0. After they are filled in
    the radius is not equal to 0 and the limit is not 0; a radius that is
    not equal to 0 and a limit that is not 0, negative ones included, are
    passed on as they are, and so is the centre; filling in the defaults
    twice changes nothing more. *)
Theorem defaults_replace_only_zero (req : NearbyRequest.t) :
  (NearbyRequest.Radius (with_defaults req) =? 0)%float = false ∧
  NearbyRequest.Limit (with_defaults req) ≠ 0 ∧
  ((NearbyRequest.Radius req =? 0)%float = false →
   NearbyRequest.Radius (with_defaults req) = NearbyRequest.Radius req) ∧
  (NearbyRequest.Limit req ≠ 0 →
   NearbyRequest.Limit (with_defaults req) = NearbyRequest.Limit req) ∧
  NearbyRequest.Latitude (with_defaults req) = NearbyRequest.Latitude req ∧
  NearbyRequest.Longitude (with_defaults req) = NearbyRequest.Longitude req ∧
  with_defaults (with_defaults req) = with_defaults req.
Proof.
  destruct req as [latitude longitude radius limit]. unfold with_defaults. simpl.
  destruct (radius =? 0)%float eqn:Hradius; simpl;
    destruct (Z.eqb_spec limit 0) as [->|Hlimit]; simpl;
    rewrite ?Hradius; simpl;
    repeat split; try done; try (by destruct (Z.eqb_spec limit 0)).
Qed.

(** ** Invariants of the three views *)

Section ViewInvariants.
Context `{redis.Metric} `{json.Codec}.

(** X17: in every reachable state, every detail record on the server was
    written by an upsert: its key is the prefix followed by the id of some
    update, its value is the encoding of the snapshot of that update at some
    time, and its deadline is one minute after that time. No detail record
    is ever stored without an expiry or under another key. *)
Theorem detail_records_come_from_upserts (w : World) : reachable w →
  written_by_upserts (server w).
Proof.
  intros (t0 & events & ->).
  assert (written_by_upserts (server (boot t0))) as Hboot.
  { intros key entry. simpl. by rewrite lookup_empty. }
  revert Hboot. generalize (boot t0).
  induction events as [|e events IH]; intros w Hw; [done|].
  simpl. apply IH. clear IH. apply run_preserves; [| |done].
  - intros c db Hc Hdb. destruct e as [[update|]| | | |key [|]|]; simpl in Hc;
      try by apply elem_of_nil in Hc.
    + destruct (json.Marshal _) as [data|] eqn:Hdata; [|by apply elem_of_nil in Hc].
      unfold upsert_batch in Hc. rewrite !elem_of_cons in Hc.
      destruct Hc as [->|[->|[->|Hc]]]; [| |by destruct (LocationUpdate.IsActive update)
                                         |by apply elem_of_nil in Hc]; [|done].
      intros key entry. simpl. rewrite lookup_insert.
      case_decide as Hkey; [|by apply Hdb].
      intros [= <-]. by exists update, (clock w).
    + destruct (strings.HasPrefix key DriverPrefix); [|by apply elem_of_nil in Hc].
      unfold cleanup_batch in Hc. rewrite !elem_of_cons in Hc.
      destruct Hc as [->|[->|Hc]]; [done|done|by apply elem_of_nil in Hc].
  - intros key db Hdb key' entry. simpl. rewrite lookup_delete.
    case_decide; [done|]. by apply Hdb.
Qed.

Lemma for_range_keeps_fault_free (locations : list redis.GeoLocation)
    (acc : list (gmap string Any)) (w : World) :
  fault_free w → fault_free (for_range locations nearby_body acc w).2.
Proof.
  revert acc w. induction locations as [|loc rest IH]; intros acc w Hw; [done|].
  simpl. unfold mbind, M_bind.
  pose proof (nearby_body_world acc loc w) as Hworld.
  destruct (nearby_body acc loc w) as [acc' w1]. simpl in Hworld. apply IH.
  destruct Hworld as [-> | ->]; rewrite ?fetched_eq, checked_eq;
    by repeat apply fault_free_after.
Qed.

Lemma run_keeps_fault_free (e : Event) (w : World) :
  calm e → fault_free w → fault_free (run w e).
Proof.
  intros He Hw. destruct e as [[update|err]|[req|err]|driverID|d|key delivered|plan];
    unfold run; try done.
  - by apply upsert_fault_free.
  - rewrite (FindNearbyDrivers_answered _ _ (fault_free_next w Hw)). simpl.
    by apply for_range_keeps_fault_free, fault_free_after.
  - rewrite GetDriver_eq. unfold Get. rewrite call_eq. simpl.
    by apply fault_free_after.
  - unfold expire. destruct (redis.strings (server w) !! key) as [entry|]; [|done].
    destruct (redis.live (clock w) entry); [done|].
    destruct delivered; [|done].
    destruct (strings.HasPrefix key DriverPrefix) eqn:Hp.
    + apply HasPrefix_inv in Hp.
      set (driverID := strings.TrimPrefix key DriverPrefix) in *. clearbody driverID.
      subst key. rewrite onExpired_eq. cbv zeta.
      destruct (first_error _ _); by apply (fault_free_after _ _ _ (drop_key _ w)).
    + unfold onExpired. by rewrite Hp.
Qed.

(** The active set and the geo index after the commands of an upsert, and
    after those of a cleanup, when all are accepted. *)
Lemma upsert_batch_views (update : LocationUpdate.t) (data : string) (now : Time)
    (db : redis.DB) :
  redis.set ActiveSetKey (foldl (λ db c, redis.apply now c db) db (upsert_batch update data)) =
    (if LocationUpdate.IsActive update
     then {[LocationUpdate.DriverID update]} ∪ redis.set ActiveSetKey db
     else redis.set ActiveSetKey db ∖ {[LocationUpdate.DriverID update]}) ∧
  redis.geoset GeoSetKey (foldl (λ db c, redis.apply now c db) db (upsert_batch update data)) =
    <[LocationUpdate.DriverID update :=
        (LocationUpdate.Longitude update, LocationUpdate.Latitude update)]>
      (redis.geoset GeoSetKey db).
Proof.
  unfold upsert_batch.
  destruct (LocationUpdate.IsActive update); simpl;
    repeat (progress (unfold redis.geoset, redis.set; simpl;
                      rewrite ?lookup_insert_eq; simpl)); done.
Qed.

Lemma cleanup_batch_views (driverID : string) (now : Time) (db : redis.DB) :
  redis.set ActiveSetKey (foldl (λ db c, redis.apply now c db) db (cleanup_batch driverID)) =
    redis.set ActiveSetKey db ∖ {[driverID]} ∧
  redis.geoset GeoSetKey (foldl (λ db c, redis.apply now c db) db (cleanup_batch driverID)) =
    delete driverID (redis.geoset GeoSetKey db).
Proof.
  unfold cleanup_batch. simpl.
  repeat (progress (unfold redis.geoset, redis.set; simpl;
                    rewrite ?lookup_insert_eq; simpl)); done.
Qed.

(** X18: as long as no command fails, every driver of the active set is in
    the geo index: an upsert always registers the position, and the cleanup
    removes the driver from both. *)
Theorem active_drivers_are_indexed (t0 : Time) (events : list Event) (id : string) :
  Forall calm events →
  id ∈ redis.set ActiveSetKey (server (foldl run (boot t0) events)) →
  is_Some (redis.geoset GeoSetKey (server (foldl run (boot t0) events)) !! id).
Proof.
  intros Hcalm.
  assert (fault_free (boot t0) ∧
          ∀ id, id ∈ redis.set ActiveSetKey (server (boot t0)) →
                is_Some (redis.geoset GeoSetKey (server (boot t0)) !! id)) as Hboot.
  { split; [constructor|]. intros id'. unfold redis.set. simpl.
    rewrite lookup_empty. simpl. by intros ?%elem_of_empty. }
  revert Hboot. generalize (boot t0). clear t0. intros w Hw.
  assert (fault_free (foldl run w events) ∧
          ∀ id, id ∈ redis.set ActiveSetKey (server (foldl run w events)) →
                is_Some (redis.geoset GeoSetKey (server (foldl run w events)) !! id))
    as [_ Hall]; [|by apply Hall].
  revert w Hw. induction Hcalm as [|e events He _ IH]; intros w [Hfree Hw]; [done|].
  simpl. apply IH. clear IH. split; [by apply run_keeps_fault_free|].
  destruct e as [[update|err]|body|driverID|d|key delivered|plan]; unfold run;
    try done.
  - rewrite UpdateDriverLocation_eq.
    destruct (json.Marshal _) as [data|err]; [|done]. simpl.
    rewrite settled_healthy by by apply (fault_free_healthy 3).
    destruct (upsert_batch_views update data (clock w) (server w)) as [-> ->].
    intros id'. rewrite lookup_insert. case_decide; [by eexists|].
    intros Hin. apply Hw.
    destruct (LocationUpdate.IsActive update).
    + apply elem_of_union in Hin as [Hin|Hin]; [|done].
      by apply elem_of_singleton in Hin.
    + by apply elem_of_difference in Hin as [Hin _].
  - by destruct (FindNearbyDrivers_server body w) as [-> _].
  - rewrite GetDriver_eq. unfold Get. by rewrite call_eq.
  - unfold expire. destruct (redis.strings (server w) !! key) as [entry|]; [|done].
    destruct (redis.live (clock w) entry); [done|].
    destruct delivered; [|done].
    rewrite onExpired_server.
    destruct (strings.HasPrefix key DriverPrefix); [|done].
    rewrite settled_healthy by by apply (fault_free_healthy 2).
    match goal with
    | |- context [cleanup_batch ?driverID] =>
        destruct (cleanup_batch_views driverID (clock (drop_key key w))
                    (server (drop_key key w))) as [-> ->]
    end.
    intros id' [Hin Hne]%elem_of_difference.
    rewrite lookup_delete_ne; [by apply Hw|].
    intros Heq. apply Hne. by apply elem_of_singleton.
Qed.

(** X19: the listener acts on detail-record keys only. Notifications for
    other keys can be left out without changing anything, and at most one
    line is logged for each notification of a detail-record key. *)
Theorem listener_ignores_foreign_keys (ch : list string) (w : World) :
  setupExpirationListener ch w =
    setupExpirationListener
      (List.filter (λ key, strings.HasPrefix key DriverPrefix) ch) w ∧
  (length (logs (setupExpirationListener ch w).2) ≤
     length (logs w) +
     length (List.filter (λ key, strings.HasPrefix key DriverPrefix) ch))%nat.
Proof.
  unfold setupExpirationListener. revert w.
  induction ch as [|key ch IH]; intros w; [by split; [|simpl; lia]|].
  simpl. destruct (strings.HasPrefix key DriverPrefix) eqn:Hp; simpl;
    unfold mbind, M_bind.
  - assert (length (logs (onExpired key w).2) ≤ S (length (logs w)))%nat as Hlog.
    { apply HasPrefix_inv in Hp.
      set (driverID := strings.TrimPrefix key DriverPrefix) in *. clearbody driverID.
      subst key. rewrite onExpired_eq. cbv zeta.
      destruct (first_error _ _); simpl; rewrite ?length_app; simpl; lia. }
    destruct (onExpired key w) as [[] w1]. simpl in Hlog.
    destruct (IH w1) as [-> Hlen]. split; [done|]. lia.
  - assert (onExpired key w = (tt, w)) as -> by (unfold onExpired; by rewrite Hp).
    apply IH.
Qed.

End ViewInvariants.

(** ** The properties at work on concrete worlds *)

Section Scenarios.
Import fixture.

Lemma fixture_codec_keeps_id : json.keeps_id.
Proof.
  intros d data d' Hencode Hdecode. simpl in *. unfold encode in Hencode.
  destruct (digit_of_float (Driver.Latitude d)); [|discriminate].
  destruct (digit_of_float (Driver.Longitude d)); [|discriminate].
  destruct (digit_of_time (Driver.LastPing d)); [|discriminate].
  injection Hencode as <-. unfold decode in Hdecode.
  repeat match type of Hdecode with
         | context [match ?x with _ => _ end] => destruct x; try discriminate
         end;
    by injection Hdecode as <-.
Qed.

(** Queried from its own position, the first driver is listed with the
    fields of its detail record and distance 0. *)
Lemma enriched_summary_witness :
  ∃ m, nearby_body [] d1_indexed fleet = ([] ++ [m], fetched d1_indexed fleet) ∧
       m !! "distance" = Some (AFloat (redis.Dist d1_indexed)) ∧
       m !! "latitude" = Some (AFloat (Driver.Latitude (snapshot d1 0))) ∧
       m !! "longitude" = Some (AFloat (Driver.Longitude (snapshot d1 0))) ∧
       m !! "id" = Some (AString (Driver.ID (snapshot d1 0))) ∧
       m !! "isActive" = Some (ABool (Driver.IsActive (snapshot d1 0))) ∧
       m !! "lastPing" = Some (ATime (Driver.LastPing (snapshot d1 0))).
Proof.
  apply (enriched_summary_takes_position_from_detail_record [] d1_indexed fleet
           (snapshot d1 0)); vm_compute; reflexivity.
Defined.

(** C1 as the spec states it fails: after a second report whose GEOADD
    failed, the index still has the driver at latitude 1 and longitude 2, its
    detail record is present and parses, and the summary carries latitude 3
    and longitude 4, those of the detail record. *)
Lemma nearby_coordinates_counterexample :
  (GeoRadius GeoSetKey 2 1 (geoOptions (with_defaults around_d1)) diverged).1 =
    Ok [d1_indexed] ∧
  passes_active_check d1_indexed diverged ∧
  detail d1_indexed diverged = Ok (snapshot d1_moved 0) ∧
  ∃ m, (FindNearbyDrivers (Ok around_d1) diverged).1 =
         respondWithJSON http.StatusOK (SummariesBody [m]) ∧
       m !! "latitude" = Some (AFloat 3) ∧
       m !! "longitude" = Some (AFloat 4) ∧
       m !! "latitude" ≠ Some (AFloat (redis.Latitude d1_indexed)) ∧
       m !! "longitude" ≠ Some (AFloat (redis.Longitude d1_indexed)).
Proof.
  split; [vm_compute; reflexivity|]. split; [vm_compute; reflexivity|].
  split; [vm_compute; reflexivity|].
  exists (driverWithDist (snapshot d1_moved 0) d1_indexed).
  split; [vm_compute; reflexivity|]. split; [reflexivity|]. split; [reflexivity|].
  split; intros Heq.
  - apply (f_equal (λ v, match v with
                         | Some (AFloat x) => (x =? 1)%float
                         | _ => false
                         end)) in Heq.
    vm_compute in Heq. discriminate.
  - apply (f_equal (λ v, match v with
                         | Some (AFloat x) => (x =? 2)%float
                         | _ => false
                         end)) in Heq.
    vm_compute in Heq. discriminate.
Qed.

(** A driver whose detail record has lapsed, but who is still in the active
    set and in the index, is listed from the index. *)
Lemma unusable_detail_record_witness :
  ∃ m, nearby_body [] d1_indexed lapsed = ([] ++ [m], fetched d1_indexed lapsed) ∧
       m !! "id" = Some (AString (redis.Name d1_indexed)) ∧
       m !! "distance" = Some (AFloat (redis.Dist d1_indexed)) ∧
       m !! "latitude" = Some (AFloat (redis.Latitude d1_indexed)) ∧
       m !! "longitude" = Some (AFloat (redis.Longitude d1_indexed)) ∧
       m !! "isActive" = Some (ABool true) ∧
       (∀ rest, for_range (d1_indexed :: rest) nearby_body [] lapsed =
                for_range rest nearby_body ([] ++ [m]) (fetched d1_indexed lapsed)) ∧
       (∀ req w0 locations,
          (GeoRadius GeoSetKey (NearbyRequest.Longitude (with_defaults req))
             (NearbyRequest.Latitude (with_defaults req))
             (geoOptions (with_defaults req)) w0).1 = Ok locations →
          StatusCode (FindNearbyDrivers (Ok req) w0).1 = http.StatusOK).
Proof.
  apply (unusable_detail_record_falls_back [] d1_indexed lapsed redis_Nil);
    vm_compute; reflexivity.
Defined.

(** The membership check of the first driver times out. *)
Lemma membership_error_witness :
  nearby_body [] d1_indexed flaky = ([], checked d1_indexed flaky) ∧
  wire (checked d1_indexed flaky) =
    wire flaky ++ [[redis.SISMEMBER ActiveSetKey (redis.Name d1_indexed)]] ∧
  (∀ rest, for_range (d1_indexed :: rest) nearby_body [] flaky =
           for_range rest nearby_body [] (checked d1_indexed flaky)) ∧
  (∀ req w0 locations,
     (GeoRadius GeoSetKey (NearbyRequest.Longitude (with_defaults req))
        (NearbyRequest.Latitude (with_defaults req))
        (geoOptions (with_defaults req)) w0).1 = Ok locations →
     StatusCode (FindNearbyDrivers (Ok req) w0).1 = http.StatusOK).
Proof.
  apply (membership_error_skips_candidate [] d1_indexed flaky (errorString "i/o timeout")).
  vm_compute. reflexivity.
Defined.

(** The first driver goes off duty; the second reports again a little
    later; a wide query then lists the second driver only. *)
Lemma inactive_driver_witness :
  driverWithDist (snapshot d2 1) d2_indexed !! "id" ≠
    Some (AString (LocationUpdate.DriverID d1_off)).
Proof.
  apply (inactive_driver_is_never_listed fleet d1_off
           [Tick 1; Update (Ok d2); Nearby (Ok around_d1)] (Ok wide)
           [driverWithDist (snapshot d2 1) d2_indexed]).
  - exact fixture_codec_keeps_id.
  - by exists 0, [Update (Ok d1); Update (Ok d2)].
  - reflexivity.
  - vm_compute. reflexivity.
  - repeat constructor. intros Hid. vm_compute in Hid. discriminate.
  - vm_compute. reflexivity.
  - by left.
Defined.

(** C3 as the spec states it fails: the success of the upsert matters. In a
    reachable state the first driver reports that it is not active, and the
    SREM of the batch fails: the request is answered with status 500, the
    detail record already says that the driver is not active, the driver is
    still in the active set, and a nanosecond later a query answered with
    status 200 lists it. *)
Lemma inactive_driver_counterexample :
  json.keeps_id ∧
  reachable stuck ∧
  LocationUpdate.IsActive d1_off = false ∧
  Forall (quiet (LocationUpdate.DriverID d1_off)) [Tick 1] ∧
  StatusCode (UpdateDriverLocation (Ok d1_off) stuck).1 =
    http.StatusInternalServerError ∧
  LocationUpdate.DriverID d1_off
    ∈ redis.set ActiveSetKey (server (UpdateDriverLocation (Ok d1_off) stuck).2) ∧
  ∃ m,
    (FindNearbyDrivers (Ok around_d1)
       (foldl run (UpdateDriverLocation (Ok d1_off) stuck).2 [Tick 1])).1 =
      respondWithJSON http.StatusOK (SummariesBody [m]) ∧
    m !! "id" = Some (AString (LocationUpdate.DriverID d1_off)) ∧
    m !! "isActive" = Some (ABool false).
Proof.
  split; [exact fixture_codec_keeps_id|].
  split; [by exists 0, [Update (Ok d1); Update (Ok d2);
                        Arm [None; None; Some "i/o timeout"]]|].
  split; [reflexivity|]. split; [by repeat constructor|].
  split; [vm_compute; reflexivity|]. split; [vm_compute; reflexivity|].
  exists (driverWithDist (snapshot d1_off 0) d1_indexed).
  split; [vm_compute; reflexivity|]. split; reflexivity.
Qed.

(** A wide query on the two drivers: both are listed, nearest first. *)
Lemma nearby_order_witness :
  ∃ kept out,
    (FindNearbyDrivers (Ok wide) fleet).1 =
      respondWithJSON http.StatusOK (SummariesBody out) ∧
    kept `sublist_of` [d1_indexed; d2_indexed] ∧
    Forall2 (emits (server fleet) (clock fleet)) kept out ∧
    omap distance_of out = redis.Dist <$> kept ∧
    (length out ≤ length [d1_indexed; d2_indexed])%nat ∧
    (0 < NearbyRequest.Limit (with_defaults wide) →
     Z.of_nat (length out) ≤ NearbyRequest.Limit (with_defaults wide)) ∧
    ascending (redis.Dist <$> [d1_indexed; d2_indexed]) ∧
    ascending (omap distance_of out).
Proof.
  apply (nearby_keeps_index_order wide fleet [d1_indexed; d2_indexed]).
  vm_compute. reflexivity.
Defined.

(** C4 as the spec states it fails for a negative limit: the client sends
    no COUNT, both drivers are listed, and 2 is not at most -1. *)
Lemma nearby_limit_counterexample :
  ∃ out,
    (FindNearbyDrivers (Ok unlimited) fleet).1 =
      respondWithJSON http.StatusOK (SummariesBody out) ∧
    NearbyRequest.Limit (with_defaults unlimited) = -1 ∧
    length out = 2%nat ∧
    ¬ (Z.of_nat (length out) ≤ NearbyRequest.Limit (with_defaults unlimited)).
Proof.
  exists [driverWithDist (snapshot d1 0) d1_indexed;
          driverWithDist (snapshot d2 0) d2_indexed].
  split; [vm_compute; reflexivity|]. split; [reflexivity|]. split; [reflexivity|].
  vm_compute. intros Hle. by apply Hle.
Qed.

(** The first report of the first driver, on an empty server. *)
Lemma upsert_batch_witness :
  Driver.LastPing (snapshot d1 (clock (boot 0))) = clock (boot 0) ∧
  wire (UpdateDriverLocation (Ok d1) (boot 0)).2 = wire (boot 0) ++
    [[ redis.SET (DriverPrefix +:+ LocationUpdate.DriverID d1) "A120d1" time.Minute;
       redis.GEOADD GeoSetKey
         (redis.MkGeoLocation (LocationUpdate.DriverID d1)
            (LocationUpdate.Longitude d1) (LocationUpdate.Latitude d1) 0 0);
       if LocationUpdate.IsActive d1
       then redis.SADD ActiveSetKey (LocationUpdate.DriverID d1)
       else redis.SREM ActiveSetKey (LocationUpdate.DriverID d1) ]] ∧
  (healthy 3 (boot 0) →
   redis.strings (server (UpdateDriverLocation (Ok d1) (boot 0)).2)
     !! (DriverPrefix +:+ LocationUpdate.DriverID d1) =
     Some ("A120d1", Some (clock (boot 0) + time.Minute)) ∧
   redis.geoset GeoSetKey (server (UpdateDriverLocation (Ok d1) (boot 0)).2)
     !! LocationUpdate.DriverID d1 =
     Some (LocationUpdate.Longitude d1, LocationUpdate.Latitude d1) ∧
   (LocationUpdate.DriverID d1
      ∈ redis.set ActiveSetKey (server (UpdateDriverLocation (Ok d1) (boot 0)).2)
    ↔ LocationUpdate.IsActive d1 = true)).
Proof.
  apply (upsert_issues_one_batch_of_three d1 (boot 0) "A120d1"). reflexivity.
Defined.

(** A report that names no driver, on an empty server. *)
Lemma empty_id_witness :
  (UpdateDriverLocation (Ok (empty_id_update 1 2 true)) (boot 0)).1 =
    respondWithJSON http.StatusOK updated ∧
  wire (UpdateDriverLocation (Ok (empty_id_update 1 2 true)) (boot 0)).2 =
    wire (boot 0) ++
    [[ redis.SET "driver:" "A120" time.Minute;
       redis.GEOADD GeoSetKey (redis.MkGeoLocation "" 2 1 0 0);
       if true then redis.SADD ActiveSetKey "" else redis.SREM ActiveSetKey "" ]] ∧
  redis.strings (server (UpdateDriverLocation (Ok (empty_id_update 1 2 true)) (boot 0)).2)
    !! "driver:" = Some ("A120", Some (clock (boot 0) + time.Minute)) ∧
  redis.geoset GeoSetKey
    (server (UpdateDriverLocation (Ok (empty_id_update 1 2 true)) (boot 0)).2)
    !! "" = Some (2%float, 1%float) ∧
  ("" ∈ redis.set ActiveSetKey
          (server (UpdateDriverLocation (Ok (empty_id_update 1 2 true)) (boot 0)).2)
   ↔ true = true).
Proof.
  apply (upsert_accepts_empty_id 1 2 true (boot 0) "A120").
  - reflexivity.
  - constructor.
Defined.

(** A query with radius -0, which is equal to 0, on the two drivers. *)
Lemma nearby_defaults_witness :
  FindNearbyDrivers (Ok (NearbyRequest.Build 1 2 (-0) 7)) fleet =
    FindNearbyDrivers (Ok (NearbyRequest.Build 1 2 5 7)) fleet ∧
  ∀ radius',
    FindNearbyDrivers (Ok (NearbyRequest.Build 1 2 radius' 0)) fleet =
      FindNearbyDrivers (Ok (NearbyRequest.Build 1 2 radius' 10)) fleet.
Proof. apply (nearby_defaults 1 2 (-0) 7 fleet). reflexivity. Defined.

(** The first driver is read one nanosecond after its first report. *)
Lemma read_after_upsert_witness :
  ∃ d,
    (GetDriver (LocationUpdate.DriverID d1)
       (tick 1 (UpdateDriverLocation (Ok d1) (boot 0)).2)).1 =
      respondWithJSON http.StatusOK (DriverBody d) ∧
    Driver.ID d = LocationUpdate.DriverID d1 ∧
    Driver.Latitude d = LocationUpdate.Latitude d1 ∧
    Driver.Longitude d = LocationUpdate.Longitude d1 ∧
    Driver.IsActive d = LocationUpdate.IsActive d1.
Proof.
  apply (read_after_upsert_returns_update d1 (boot 0) 1).
  - reflexivity.
  - intros data Hdata. vm_compute in Hdata. injection Hdata as <-. reflexivity.
  - unfold time.Minute, time.Second. lia.
  - reflexivity.
Defined.

(** The detail record of the first driver expires and the listener is told. *)
Lemma reaper_witness :
  (strings.HasPrefix "driver:d1" DriverPrefix = false →
   onExpired "driver:d1" fleet = (tt, fleet)) ∧
  (strings.HasPrefix "driver:d1" DriverPrefix = true →
   ∃ driverID,
     "driver:d1" = DriverPrefix +:+ driverID ∧
     let w' := (onExpired "driver:d1" fleet).2 in
     wire w' = wire fleet ++
       [[redis.ZREM GeoSetKey driverID; redis.SREM ActiveSetKey driverID]] ∧
     faults w' = drop 2 (faults fleet) ∧
     clock w' = clock fleet ∧
     redis.strings (server w') = redis.strings (server fleet) ∧
     (healthy 2 fleet →
      logs w' = logs fleet ∧
      redis.geoset GeoSetKey (server w') !! driverID = None ∧
      (driverID ∉ redis.set ActiveSetKey (server w'))) ∧
     (¬ healthy 2 fleet → ∃ line, logs w' = logs fleet ++ [line])) ∧
  (∀ rest, setupExpirationListener ("driver:d1" :: rest) fleet =
           setupExpirationListener rest (onExpired "driver:d1" fleet).2).
Proof. exact (reaper_handles_notification "driver:d1" fleet). Defined.

(** A wide query on the two drivers when nothing fails: both are active,
    so both are listed. *)
Lemma fault_free_query_witness :
  ∃ out,
    (FindNearbyDrivers (Ok wide) fleet).1 =
      respondWithJSON http.StatusOK (SummariesBody out) ∧
    out = omap (summary_of (server fleet) (clock fleet)) (answer wide (server fleet)) ∧
    length out =
      length (List.filter
                (λ loc, redis.sismember ActiveSetKey (redis.Name loc) (server fleet))
                (answer wide (server fleet))).
Proof.
  apply (fault_free_query_lists_active_candidates wide fleet).
  vm_compute. constructor.
Defined.

(** The second driver, 111 km away, in the answer to a query with a radius
    of 500 km. *)
Lemma listed_within_radius_witness :
  ∃ req d,
    Ok wide = Ok req ∧
    distance_of (driverWithDist (snapshot d2 0) d2_indexed) = Some d ∧
    (d <=? NearbyRequest.Radius (with_defaults req))%float = true.
Proof.
  apply (listed_drivers_are_within_radius (Ok wide) fleet
           [driverWithDist (snapshot d1 0) d1_indexed;
            driverWithDist (snapshot d2 0) d2_indexed]).
  - vm_compute. reflexivity.
  - right. left.
Defined.

Lemma listed_active_and_indexed_witness :
  ∃ id,
    driverWithDist (snapshot d2 0) d2_indexed !! "id" = Some (AString id) ∧
    id ∈ redis.set ActiveSetKey (server fleet) ∧
    is_Some (redis.geoset GeoSetKey (server fleet) !! id).
Proof.
  apply (listed_drivers_are_active_and_indexed (Ok wide) fleet
           [driverWithDist (snapshot d1 0) d1_indexed;
            driverWithDist (snapshot d2 0) d2_indexed]).
  - exact fixture_codec_keeps_id.
  - by exists 0, [Update (Ok d1); Update (Ok d2)].
  - vm_compute. reflexivity.
  - right. left.
Defined.

(** The second driver reports again; the views of the first stay as they
    were. *)
Lemma other_driver_untouched_witness :
  redis.strings (server (UpdateDriverLocation (Ok d2) fleet).2) !! (DriverPrefix +:+ "d1") =
    redis.strings (server fleet) !! (DriverPrefix +:+ "d1") ∧
  redis.geoset GeoSetKey (server (UpdateDriverLocation (Ok d2) fleet).2) !! "d1" =
    redis.geoset GeoSetKey (server fleet) !! "d1" ∧
  ("d1" ∈ redis.set ActiveSetKey (server (UpdateDriverLocation (Ok d2) fleet).2) ↔
   "d1" ∈ redis.set ActiveSetKey (server fleet)).
Proof.
  apply (upsert_leaves_other_drivers_alone d2 fleet "d1"). vm_compute. discriminate.
Defined.

(** The first driver reports a new position and the SET times out: the
    request fails, the detail record is the old one, the index has the new
    position. *)
Lemma failed_set_witness :
  (UpdateDriverLocation (Ok d1_moved) flaky).1 =
    respondWithError http.StatusInternalServerError
      ("Redis operation failed: " +:+ "i/o timeout") ∧
  redis.strings (server (UpdateDriverLocation (Ok d1_moved) flaky).2) =
    redis.strings (server flaky) ∧
  redis.geoset GeoSetKey (server (UpdateDriverLocation (Ok d1_moved) flaky).2)
    !! LocationUpdate.DriverID d1_moved =
    Some (LocationUpdate.Longitude d1_moved, LocationUpdate.Latitude d1_moved) ∧
  (LocationUpdate.DriverID d1_moved
     ∈ redis.set ActiveSetKey (server (UpdateDriverLocation (Ok d1_moved) flaky).2)
   ↔ LocationUpdate.IsActive d1_moved = true).
Proof.
  apply (failed_set_is_not_rolled_back d1_moved flaky "A340d1" "i/o timeout" []).
  - vm_compute. reflexivity.
  - vm_compute. reflexivity.
  - simpl. constructor.
Defined.

(** The first driver reports, and a nanosecond later reports a new
    position: the server is as if only the second report had been made. *)
Lemma last_upsert_witness :
  server (UpdateDriverLocation (Ok d1_moved)
            (tick 1 (UpdateDriverLocation (Ok d1) (boot 0)).2)).2 =
    server (UpdateDriverLocation (Ok d1_moved) (tick 1 (boot 0))).2.
Proof.
  apply (last_upsert_wins d1 d1_moved (boot 0) 1 "A120d1" "A341d1").
  - reflexivity.
  - constructor.
  - vm_compute. reflexivity.
  - vm_compute. reflexivity.
Defined.

(** The first driver reports and is looked for from its own position a
    nanosecond later. *)
Lemma reported_driver_witness :
  ∃ out,
    (FindNearbyDrivers (Ok around_d1)
       (tick 1 (UpdateDriverLocation (Ok d1) (boot 0)).2)).1 =
      respondWithJSON http.StatusOK (SummariesBody out) ∧
    driverWithDist (snapshot d1 (clock (boot 0)))
      (candidate (NearbyRequest.Longitude (with_defaults around_d1))
         (NearbyRequest.Latitude (with_defaults around_d1)) d1) ∈ out.
Proof.
  apply (reported_driver_is_found d1 (boot 0) "A120d1" 1 around_d1).
  - constructor.
  - vm_compute. reflexivity.
  - intros data Hdata. vm_compute in Hdata. injection Hdata as <-. reflexivity.
  - reflexivity.
  - unfold time.Minute, time.Second. lia.
  - vm_compute. reflexivity.
  - right. vm_compute. discriminate.
Defined.

(** The same driver looked for a minute after its report. *)
Lemma silent_driver_witness :
  ∃ out,
    (FindNearbyDrivers (Ok around_d1)
       (tick time.Minute (UpdateDriverLocation (Ok d1) (boot 0)).2)).1 =
      respondWithJSON http.StatusOK (SummariesBody out) ∧
    fallback (LocationUpdate.DriverID d1)
      (candidate (NearbyRequest.Longitude (with_defaults around_d1))
         (NearbyRequest.Latitude (with_defaults around_d1)) d1) ∈ out.
Proof.
  apply (silent_driver_is_listed_from_index d1 (boot 0) "A120d1" time.Minute around_d1).
  - constructor.
  - vm_compute. reflexivity.
  - reflexivity.
  - lia.
  - vm_compute. reflexivity.
  - right. vm_compute. discriminate.
Defined.

(** The first driver is read a minute after its report. *)
Lemma read_after_a_minute_witness :
  (GetDriver (LocationUpdate.DriverID d1)
     (tick time.Minute (UpdateDriverLocation (Ok d1) (boot 0)).2)).1 =
    respondWithError http.StatusNotFound "Driver not found".
Proof.
  apply (read_after_a_minute_is_not_found d1 (boot 0) time.Minute).
  - vm_compute. reflexivity.
  - lia.
  - reflexivity.
Defined.

(** The detail record of the silent driver expires and the listener is
    told. *)
Lemma expiry_witness :
  redis.strings (server (expire (DriverPrefix +:+ "d1") true lapsed))
    !! (DriverPrefix +:+ "d1") = None ∧
  redis.geoset GeoSetKey (server (expire (DriverPrefix +:+ "d1") true lapsed)) !! "d1" = None ∧
  ("d1" ∉ redis.set ActiveSetKey (server (expire (DriverPrefix +:+ "d1") true lapsed))) ∧
  logs (expire (DriverPrefix +:+ "d1") true lapsed) = logs lapsed ∧
  (∀ req loc,
     loc ∈ answer req (server (expire (DriverPrefix +:+ "d1") true lapsed)) →
     redis.Name loc ≠ "d1").
Proof.
  apply (expiry_removes_driver_everywhere "d1" lapsed ("A120d1", Some time.Minute)).
  - vm_compute. reflexivity.
  - vm_compute. reflexivity.
  - vm_compute. constructor.
Defined.

(** The listener is told of the first driver; the second stays. *)
Lemma cleanup_other_driver_witness :
  redis.strings (server (onExpired "driver:d1" fleet).2) = redis.strings (server fleet) ∧
  redis.geoset GeoSetKey (server (onExpired "driver:d1" fleet).2) !! "d2" =
    redis.geoset GeoSetKey (server fleet) !! "d2" ∧
  ("d2" ∈ redis.set ActiveSetKey (server (onExpired "driver:d1" fleet).2) ↔
   "d2" ∈ redis.set ActiveSetKey (server fleet)).
Proof.
  apply (cleanup_leaves_other_drivers_alone "driver:d1" "d2" fleet).
  vm_compute. discriminate.
Defined.

Lemma detail_records_witness : written_by_upserts (server fleet).
Proof.
  apply (detail_records_come_from_upserts fleet).
  by exists 0, [Update (Ok d1); Update (Ok d2)].
Defined.

Lemma active_indexed_witness :
  is_Some (redis.geoset GeoSetKey
             (server (foldl run (boot 0) [Update (Ok d1); Update (Ok d2)])) !! "d2").
Proof.
  apply (active_drivers_are_indexed 0 [Update (Ok d1); Update (Ok d2)] "d2").
  - repeat constructor.
  - vm_compute. reflexivity.
Defined.

End Scenarios.
